(** * canal/sync.go: the binlog synchronisation loop of the canal package

    A shallow embedding of [src/canal/sync.go]: the ALTER TABLE detector
    [expAlterTable], the schema filter [isSkipedSchema], the row event
    translator [handleRowsEvent], the body of the loop of [startSyncBinlog]
    and the polling loop of [WaitUntilPos].

    Calls to the collaborators that live outside this file (the syncer, the
    position tracker [c.master], the master-info handler, the table cache and
    the registered row handlers) are recorded in a trace of [Call]s; what they
    return is an input of the iteration, so every theorem holds for every
    possible behaviour of the collaborators. *)

From Stdlib Require Import ZArith List String Ascii Bool Lia.
Import ListNotations.
Open Scope string_scope.
Open Scope list_scope.
Open Scope Z_scope.

(** ** time.Duration *)

Module Duration.

(** [time.Duration] is an [int64] count of nanoseconds. *)
Definition t := Z.

Definition wrap (z : Z) : Z := (z + 2 ^ 63) mod 2 ^ 64 - 2 ^ 63.

Definition Nanosecond : t := 1.
Definition Millisecond : t := 1000000.
Definition Second : t := 1000000000.

(** Multiplication of two [int64]: the product wraps around. *)
Definition mul (a b : t) : t := wrap (a * b).

End Duration.

(** ** The regular expression [expAlterTable] *)

Module Regexp.

(** One-character matchers of the pattern.  The pattern is compiled with
    the flag [(?i)], so a literal letter matches both of its cases. *)
Inductive cls : Type :=
| Lit (c : ascii)             (* a literal that is not a letter *)
| Fold (lower upper : ascii)  (* a letter under (?i) *)
| Space                       (* \s  = [\t\n\f\r ] *)
| Dot                         (* .   = any character but \n *)
| NoneOf (l : list ascii).    (* [^...], which does match \n *)

Definition eqa (a b : ascii) : bool := Ascii.eqb a b.

Definition accepts (p : cls) (c : ascii) : bool :=
  match p with
  | Lit x => eqa c x
  | Fold lo up => eqa c lo || eqa c up
  | Space =>
      eqa c "009" || eqa c "010" || eqa c "012" || eqa c "013" || eqa c " "
  | Dot => negb (eqa c "010")
  | NoneOf l => negb (existsb (eqa c) l)
  end.

(** The fragment of the syntax that the pattern uses: repetition is only
    ever applied to a one-character matcher. *)
Inductive re : Type :=
| Bol                                                   (* ^ *)
| One (p : cls)
| Rep (p : cls) (lo : nat) (hi : option nat) (greedy : bool)
| Cap (n : nat) (r : re)
| Cat (r1 r2 : re).

Definition captures := list (nat * list ascii).

(** [rep] consumes between [lo] and [hi] characters accepted by [p] and
    hands the rest to the continuation.  A greedy repetition prefers one
    more character, a lazy one prefers to stop: the first alternative
    that lets the continuation succeed wins (leftmost-first matching). *)
Fixpoint rep {R} (greedy : bool) (p : cls) (lo : nat) (hi : option nat)
    (s : list ascii) (pos : nat) (k : list ascii -> nat -> option R)
    {struct s} : option R :=
  let more (_ : unit) :=
    match hi with
    | Some O => None
    | _ =>
        match s with
        | c :: s' =>
            if accepts p c
            then rep greedy p (Nat.pred lo) (option_map Nat.pred hi) s' (S pos) k
            else None
        | [] => None
        end
    end in
  let stop (_ : unit) :=
    match lo with
    | O => k s pos
    | S _ => None
    end in
  if greedy
  then match more tt with Some x => Some x | None => stop tt end
  else match stop tt with Some x => Some x | None => more tt end.

(** [run r s pos caps k]: match [r] at offset [pos] of the text, whose
    remainder is [s]. *)
Fixpoint run {R} (r : re) (s : list ascii) (pos : nat) (caps : captures)
    (k : list ascii -> nat -> captures -> option R) {struct r} : option R :=
  match r with
  | Bol => match pos with O => k s pos caps | S _ => None end
  | One p =>
      match s with
      | c :: s' => if accepts p c then k s' (S pos) caps else None
      | [] => None
      end
  | Rep p lo hi g => rep g p lo hi s pos (fun s' pos' => k s' pos' caps)
  | Cap n r' =>
      run r' s pos caps
        (fun s' pos' caps' => k s' pos' ((n, firstn (pos' - pos) s) :: caps'))
  | Cat r1 r2 =>
      run r1 s pos caps (fun s' pos' caps' => run r2 s' pos' caps' k)
  end.

Fixpoint lookup (n : nat) (caps : captures) : list ascii :=
  match caps with
  | [] => []
  | (m, v) :: caps' => if Nat.eqb n m then v else lookup n caps'
  end.

(** A match of [r] that starts at offset [pos]: the whole match followed
    by the [groups] submatches. *)
Definition match_at (r : re) (groups : nat) (s : list ascii) (pos : nat)
    : option (list (list ascii)) :=
  run r s pos []
    (fun _ pos' caps =>
       Some (firstn (pos' - pos) s
               :: map (fun n => lookup n caps) (seq 1 groups))).

(** The leftmost match: start offsets are tried from left to right. *)
Fixpoint search (r : re) (groups : nat) (s : list ascii) (pos : nat)
    {struct s} : option (list (list ascii)) :=
  match match_at r groups s pos with
  | Some m => Some m
  | None =>
      match s with
      | [] => None
      | _ :: s' => search r groups s' (S pos)
      end
  end.

(** The method [FindSubmatch] of a compiled pattern: [None] is Go's nil
    result. *)
Definition FindSubmatch (r : re) (groups : nat) (b : string)
    : option (list string) :=
  option_map (map string_of_list_ascii)
    (search r groups (list_ascii_of_string b) 0).

Fixpoint cat (l : list re) : re :=
  match l with
  | [] => Rep Dot 0 (Some O) true
  | [r] => r
  | r :: l' => Cat r (cat l')
  end.

Definition opt (p : cls) : re := Rep p 0 (Some 1%nat) true.      (* x{0,1} *)
Definition lazy_star (p : cls) : re := Rep p 0 None false.      (* lazy star *)
Definition lazy_plus (p : cls) : re := Rep p 1 None false.      (* lazy plus *)
Definition star (p : cls) : re := Rep p 0 None true.            (* greedy star *)

End Regexp.

Import Regexp.

(** [(?i)^ALTER\sTABLE\s.*?`{0,1}(.*?)`{0,1}\.{0,1}`{0,1}([^`\.]+?)`{0,1}\s.*] *)
Definition expAlterTable : re :=
  cat [ Bol;
        One (Fold "a" "A"); One (Fold "l" "L"); One (Fold "t" "T");
        One (Fold "e" "E"); One (Fold "r" "R");
        One Space;
        One (Fold "t" "T"); One (Fold "a" "A"); One (Fold "b" "B");
        One (Fold "l" "L"); One (Fold "e" "E");
        One Space;
        lazy_star Dot;
        opt (Lit "`");
        Cap 1 (lazy_star Dot);
        opt (Lit "`");
        opt (Lit ".");
        opt (Lit "`");
        Cap 2 (lazy_plus (NoneOf ["`"; "."]%char));
        opt (Lit "`");
        One Space;
        star Dot ].

Definition expAlterTable_FindSubmatch (query : string) : option (list string) :=
  FindSubmatch expAlterTable 2 query.


(** ** Data of the imported packages mysql and replication *)

(** [mysql.Position]: [Pos] is a [uint32]. *)
Record Position : Type := mkPosition { Name : string; Pos : Z }.

Definition uint32 (z : Z) : Z := z mod 2 ^ 32.

(** [replication.EventType] is a byte.  The six constants that the source
    names are those of the binary log protocol. *)
Definition EventType := Z.
Definition WRITE_ROWS_EVENTv1 : EventType := 23.
Definition UPDATE_ROWS_EVENTv1 : EventType := 24.
Definition DELETE_ROWS_EVENTv1 : EventType := 25.
Definition WRITE_ROWS_EVENTv2 : EventType := 30.
Definition UPDATE_ROWS_EVENTv2 : EventType := 31.
Definition DELETE_ROWS_EVENTv2 : EventType := 32.

Record EventHeader : Type := mkHeader { EventType_ : EventType; LogPos : Z }.

Definition Row := list string.

Record RotateEvent : Type := mkRotate { Position_ : Z; NextLogName : string }.
Record RowsEvent : Type :=
  mkRows { Table_Schema : string; Table_Table : string; Rows : list Row }.
Record QueryEvent : Type := mkQuery { Schema : string; Query : string }.

(** The dynamic type of [ev.Event]; [OtherEvent] stands for every type of
    the package that the type switch does not name. *)
Inductive Event : Type :=
| ERotate (e : RotateEvent)
| ERows (e : RowsEvent)
| EXID
| EQuery (e : QueryEvent)
| OtherEvent (kind : string).

Record BinlogEvent : Type := mkEvent { Header : EventHeader; Event_ : Event }.

(** Table metadata, as the table cache returns it. *)
Record Table : Type :=
  mkTable { T_Schema : string; T_Name : string; T_Columns : list string }.

(** The action constants of the package. *)
Inductive Action : Type := InsertAction | UpdateAction | DeleteAction.

(** What [newRowsEvent] builds. *)
Record RowsEvents : Type :=
  newRowsEvent { R_Table : Table; R_Action : Action; R_Rows : list Row }.

Inductive error : Type :=
| DeadlineExceeded                       (* context.DeadlineExceeded *)
| External (msg : string)                (* an error of a collaborator *)
| NotSupported (t : EventType)           (* "%s not supported now" *)
| StartSyncError (p : Position) (e : error)
| WaitPosition (p : Position)            (* "wait position %v err" *)
| Trace (e : error).                     (* errors.Trace *)

Definition is_DeadlineExceeded (e : error) : bool :=
  match e with DeadlineExceeded => true | _ => false end.

(** ** Calls to the collaborators and log lines *)

Inductive LogLine : Type :=
| Info_start_sync (p : Position)
| Info_rotate (p : Position)
| Error_handle_rows (e : error)
| Info_table_changed (schema table : string)
| Info_skiped (schema tableDB : string).

Inductive Call : Type :=
| Call_StartSync (p : Position)
| Call_GetEvent (timeout : Duration.t)
| Call_master_Update (name : string) (pos : Z)
| Call_master_Save (force : bool)
| Call_SavePos (name : string) (pos : Z)
| Call_GetTable (schema table : string)
| Call_ClearTableCache (schema table : string)
| Call_travelRowsEventHandler (e : RowsEvents)
| Call_log (l : LogLine).

(** ** State and effects

    The package-level [skipedSchemaList] is the state; the calls made are
    collected in order.  [skipedSchemaLock] is held around every access of
    the list, so an access is one atomic step of this sequential model. *)

Definition M (A : Type) : Type := list string -> A * list string * list Call.

Definition ret {A} (a : A) : M A := fun s => (a, s, []).

Definition bind {A B} (m : M A) (f : A -> M B) : M B :=
  fun s =>
    let '(a, s1, t1) := m s in
    let '(b, s2, t2) := f a s1 in
    (b, s2, t1 ++ t2).

Definition call (c : Call) : M unit := fun s => (tt, s, [c]).
Definition get_skipedSchemaList : M (list string) := fun s => (s, s, []).
Definition set_skipedSchemaList (l : list string) : M unit := fun _ => (tt, l, []).

Notation "x <- m ;; k" := (bind m (fun x => k))
  (at level 61, m at next level, right associativity).
Notation "m ;;; k" := (bind m (fun _ => k))
  (at level 61, right associativity).

Definition value {A} (x : A * list string * list Call) : A := fst (fst x).
Definition skiped {A} (x : A * list string * list Call) : list string := snd (fst x).
Definition calls {A} (x : A * list string * list Call) : list Call := snd x.

(** The part of a [Canal] that this file reads. *)
Record Canal : Type :=
  mkCanal { cfg_Dump_TableDB : string; master_Name : string; master_Position : Z }.

(** What the collaborators return during one iteration of the loop. *)
Record Responses : Type := mkResponses {
  on_GetTable : Table + error;
  on_travelRowsEventHandler : option error;
  on_master_Save : bool * option error;
  (* nil, or a handler together with what its SavePos returns *)
  on_getMasterInfoHandler : option (option error)
}.

(** ** isSkipedSchema *)

(** The [for ... range skipedSchemaList] loop with its [break]. *)
Fixpoint range_found (schema : string) (l : list string) : bool :=
  match l with
  | [] => false
  | v :: l' => if String.eqb v schema then true else range_found schema l'
  end.

Definition isSkipedSchema (c : Canal) (schema : string) : M bool :=
  if negb (String.eqb (cfg_Dump_TableDB c) "")
     && negb (String.eqb (cfg_Dump_TableDB c) schema)
  then
    l <- get_skipedSchemaList ;;
    let found := range_found schema l in
    (if negb found then set_skipedSchemaList (l ++ [schema]) else ret tt) ;;;
    (if negb found
     then call (Call_log (Info_skiped schema (cfg_Dump_TableDB c)))
     else ret tt) ;;;
    ret true
  else ret false.

(** ** handleRowsEvent *)

(** The [switch e.Header.EventType]. *)
Definition action_of (t : EventType) : option Action :=
  if (t =? WRITE_ROWS_EVENTv1) || (t =? WRITE_ROWS_EVENTv2) then Some InsertAction
  else if (t =? DELETE_ROWS_EVENTv1) || (t =? DELETE_ROWS_EVENTv2) then Some DeleteAction
  else if (t =? UPDATE_ROWS_EVENTv1) || (t =? UPDATE_ROWS_EVENTv2) then Some UpdateAction
  else None.

(** [handleRowsEvent] is only called on an event whose [Event] is a
    [RowsEvent]; the header and that event are its arguments here. *)
Definition handleRowsEvent (c : Canal) (r : Responses)
    (h : EventHeader) (ev : RowsEvent) : M (option error) :=
  let schema := Table_Schema ev in
  let table := Table_Table ev in
  skip <- isSkipedSchema c schema ;;
  if skip then ret None
  else
    call (Call_GetTable schema table) ;;;
    match on_GetTable r with
    | inr err => ret (Some (Trace err))
    | inl t =>
        match action_of (EventType_ h) with
        | None => ret (Some (NotSupported (EventType_ h)))
        | Some action =>
            let events := newRowsEvent t action (Rows ev) in
            call (Call_travelRowsEventHandler events) ;;;
            ret (on_travelRowsEventHandler r)
        end
    end.

(** ** startSyncBinlog *)

(** The variables of [startSyncBinlog] that live across iterations. *)
Record Locals : Type := mkLocals {
  pos : Position;
  timeout : Duration.t;
  forceSavePos : bool;
  posSaved : bool
}.

Definition set_pos (p : Position) (l : Locals) : Locals :=
  mkLocals p (timeout l) (forceSavePos l) (posSaved l).
Definition set_timeout (d : Duration.t) (l : Locals) : Locals :=
  mkLocals (pos l) d (forceSavePos l) (posSaved l).
Definition set_forceSavePos (b : bool) (l : Locals) : Locals :=
  mkLocals (pos l) (timeout l) b (posSaved l).
Definition set_posSaved (b : bool) (l : Locals) : Locals :=
  mkLocals (pos l) (timeout l) (forceSavePos l) b.

(** How one iteration of the [for] loop ends: with [continue] (or by
    falling off the end of the body), or with [return err]. *)
Inductive Outcome : Type :=
| Continue (l : Locals)
| Return (e : error).

(** Lines 94 to 105: the statements after the type switch. *)
Definition save_step (r : Responses) (l : Locals) : M Outcome :=
  call (Call_master_Update (Name (pos l)) (Pos (pos l))) ;;;
  call (Call_master_Save (forceSavePos l)) ;;;
  let l := set_posSaved (fst (on_master_Save r)) l in
  match snd (on_master_Save r) with
  | Some err => ret (Return (Trace err))
  | None =>
      if posSaved l then
        match on_getMasterInfoHandler r with
        | Some savePos =>
            call (Call_SavePos (Name (pos l)) (Pos (pos l))) ;;;
            match savePos with
            | Some err => ret (Return err)
            | None => ret (Continue l)
            end
        | None => ret (Continue l)
        end
      else ret (Continue l)
  end.

(** The wait that bounds one call of [GetEvent] (line 37). *)
Definition getEvent_wait (l : Locals) : Duration.t :=
  Duration.mul 2 Duration.Second.

(** The body of the [for] loop; [g] is what [s.GetEvent(ctx)] returns. *)
Definition iteration (c : Canal) (g : BinlogEvent + error) (r : Responses)
    (l : Locals) : M Outcome :=
  call (Call_GetEvent (getEvent_wait l)) ;;;
  match g with
  | inr err =>
      if is_DeadlineExceeded err
      then ret (Continue (set_timeout (Duration.mul 2 (timeout l)) l))
      else ret (Return (Trace err))
  | inl ev =>
      let l := set_timeout Duration.Second l in
      let l := set_pos (mkPosition (Name (pos l)) (LogPos (Header ev))) l in
      let l := set_forceSavePos false l in
      match Event_ ev with
      | ERotate e =>
          let l := set_pos (mkPosition (NextLogName e) (Pos (pos l))) l in
          let l := set_pos (mkPosition (Name (pos l)) (uint32 (Position_ e))) l in
          let l := set_forceSavePos true l in
          call (Call_log (Info_rotate (pos l))) ;;;
          save_step r l
      | ERows e =>
          err <- handleRowsEvent c r (Header ev) e ;;
          match err with
          | Some err =>
              call (Call_log (Error_handle_rows err)) ;;;
              ret (Return (Trace err))
          | None => ret (Continue l)
          end
      | EXID => save_step r l
      | EQuery e =>
          match expAlterTable_FindSubmatch (Query e) with
          | Some mb =>
              let mb1 := nth 1 mb "" in
              let mb2 := nth 2 mb "" in
              let mb1 := if (String.length mb1 =? 0)%nat then Schema e else mb1 in
              call (Call_ClearTableCache mb1 mb2) ;;;
              call (Call_log (Info_table_changed mb1 mb2)) ;;;
              let l := set_forceSavePos true l in
              save_step r l
          | None => ret (Continue l)
          end
      | OtherEvent _ => ret (Continue l)
      end
  end.

(** The loop, run on the answers of the syncer and of the other
    collaborators to its first iterations.  The Go loop has no exit but
    [return]: [Continue l] says that the loop is about to pull again. *)
Fixpoint run (c : Canal) (answers : list ((BinlogEvent + error) * Responses))
    (l : Locals) : M Outcome :=
  match answers with
  | [] => ret (Continue l)
  | (g, r) :: answers' =>
      o <- iteration c g r l ;;
      match o with
      | Continue l' => run c answers' l'
      | Return e => ret (Return e)
      end
  end.

Definition startSyncBinlog (c : Canal) (startSync : option error)
    (answers : list ((BinlogEvent + error) * Responses)) : M Outcome :=
  let p := mkPosition (master_Name c) (master_Position c) in
  call (Call_log (Info_start_sync p)) ;;;
  call (Call_StartSync p) ;;;
  match startSync with
  | Some err => ret (Return (StartSyncError p err))
  | None => run c answers (mkLocals p Duration.Second false false)
  end.

(** ** WaitUntilPos *)

Module Wait.

(** Modelled from the spec: the method [Compare] of [mysql.Position],
    which is not part of this file.  Section 3 of the specification orders
    positions by file name, then by offset; file names are compared as Go
    compares strings. *)
Definition Compare (p o : Position) : Z :=
  match String.compare (Name p) (Name o) with
  | Gt => 1
  | Lt => -1
  | Eq => if Pos o <? Pos p then 1 else if Pos p <? Pos o then -1 else 0
  end.

Definition tick : Duration.t := Duration.mul 100 Duration.Millisecond.

(** The [for { select { ... } }] loop under a logical clock that starts at
    0 when the timer is created: the timer has fired once the clock has
    reached [deadline]; [time.Sleep] advances the clock by [tick], everything
    else takes no time.  [curpos k] is what the [k]-th call of
    [c.master.Pos()] returns.  The result is the returned error and the time
    of the return; [None] only when [fuel] runs out. *)
Fixpoint poll (fuel : nat) (curpos : nat -> Position) (target : Position)
    (deadline now : Duration.t) (k : nat) : option (option error * Duration.t) :=
  match fuel with
  | O => None
  | S fuel' =>
      if deadline <=? now then Some (Some (WaitPosition target), now)
      else if 0 <=? Compare (curpos k) target then Some (None, now)
      else poll fuel' curpos target deadline (now + tick) (S k)
  end.

Definition WaitUntilPos_fuel (fuel : nat) (curpos : nat -> Position)
    (target : Position) (timeout : Z) : option (option error * Duration.t) :=
  let timeout := if timeout <=? 0 then 60 else timeout in
  poll fuel curpos target (Duration.mul timeout Duration.Second) 0 0.

(** Fuel that suffices for every deadline: one iteration per tick before
    the deadline and one more. *)
Definition enough (timeout : Z) : nat :=
  let timeout := if timeout <=? 0 then 60 else timeout in
  S (Z.to_nat (Duration.mul timeout Duration.Second / tick + 1)).

Definition WaitUntilPos (curpos : nat -> Position) (target : Position)
    (timeout : Z) : option (option error * Duration.t) :=
  WaitUntilPos_fuel (enough timeout) curpos target timeout.

End Wait.

(** * Properties *)

(** ** The schema filter *)

Lemma range_found_In (schema : string) (l : list string) :
  range_found schema l = true <-> In schema l.
Proof.
  induction l as [|v l IH]; simpl.
  - split; [discriminate | tauto].
  - destruct (String.eqb_spec v schema) as [->|Hne].
    + split; auto.
    + rewrite IH. split; [auto | intros [H|H]; [congruence | exact H]].
Qed.

Lemma range_found_not_In (schema : string) (l : list string) :
  range_found schema l = false <-> ~ In schema l.
Proof.
  rewrite <- range_found_In. destruct (range_found schema l); split; congruence.
Qed.

Definition restricted (c : Canal) (schema : string) : bool :=
  negb (String.eqb (cfg_Dump_TableDB c) "")
  && negb (String.eqb (cfg_Dump_TableDB c) schema).

Lemma restricted_true (c : Canal) (schema : string) :
  restricted c schema = true <->
  cfg_Dump_TableDB c <> "" /\ cfg_Dump_TableDB c <> schema.
Proof.
  unfold restricted.
  destruct (String.eqb_spec (cfg_Dump_TableDB c) "");
    destruct (String.eqb_spec (cfg_Dump_TableDB c) schema); simpl;
    split; try tauto; try discriminate; intros [? ?]; congruence.
Qed.

(** The three ways a call of [isSkipedSchema] can go. *)
Lemma isSkipedSchema_eq (c : Canal) (schema : string) (s : list string) :
  isSkipedSchema c schema s =
  if restricted c schema then
    if range_found schema s then (true, s, [])
    else (true, s ++ [schema],
          [Call_log (Info_skiped schema (cfg_Dump_TableDB c))])
  else (false, s, []).
Proof.
  unfold isSkipedSchema, restricted.
  destruct (negb (cfg_Dump_TableDB c =? "")%string
            && negb (cfg_Dump_TableDB c =? schema)%string); [|reflexivity].
  unfold bind, get_skipedSchemaList.
  destruct (range_found schema s); reflexivity.
Qed.

Lemma isSkipedSchema_extends (c : Canal) (schema : string) (s : list string) :
  exists ext, skiped (isSkipedSchema c schema s) = s ++ ext.
Proof.
  rewrite isSkipedSchema_eq.
  destruct (restricted c schema); [destruct (range_found schema s)|].
  - exists []. simpl. now rewrite app_nil_r.
  - exists [schema]. reflexivity.
  - exists []. simpl. now rewrite app_nil_r.
Qed.

Lemma NoDup_snoc (x : string) (l : list string) :
  NoDup l -> ~ In x l -> NoDup (l ++ [x]).
Proof.
  induction l as [|y l IH]; simpl; intros Hnd Hin.
  - constructor; [tauto | constructor].
  - inversion Hnd; subst. constructor.
    + rewrite in_app_iff. simpl. intros [H|[H|[]]]; [tauto | subst; tauto].
    + apply IH; tauto.
Qed.

Lemma isSkipedSchema_NoDup (c : Canal) (schema : string) (s : list string) :
  NoDup s -> NoDup (skiped (isSkipedSchema c schema s)).
Proof.
  intros Hnd. rewrite isSkipedSchema_eq.
  destruct (restricted c schema); [|exact Hnd].
  destruct (range_found schema s) eqn:Hf; [exact Hnd|].
  apply NoDup_snoc; [exact Hnd | now apply range_found_not_In].
Qed.

(** C5: the filter answers false when no scope is configured and when the
    schema is the configured one, true otherwise; in the skip case the schema
    is remembered in the shared list, so that of repeated calls with the same
    out-of-scope schema only the first one logs the note, while each of them
    answers true. *)
Theorem isSkipedSchema_decision (c : Canal) (schema : string) (s : list string) :
  (cfg_Dump_TableDB c = "" ->
   isSkipedSchema c schema s = (false, s, [])) /\
  (cfg_Dump_TableDB c = schema ->
   isSkipedSchema c schema s = (false, s, [])) /\
  (cfg_Dump_TableDB c <> "" -> cfg_Dump_TableDB c <> schema ->
   let first := isSkipedSchema c schema s in
   let again := isSkipedSchema c schema (skiped first) in
   value first = true /\
   In schema (skiped first) /\
   (~ In schema s ->
    calls first = [Call_log (Info_skiped schema (cfg_Dump_TableDB c))]) /\
   (In schema s -> first = (true, s, [])) /\
   again = (true, skiped first, [])).
Proof.
  split; [|split].
  - intros H. rewrite isSkipedSchema_eq. unfold restricted. rewrite H. reflexivity.
  - intros H. rewrite isSkipedSchema_eq. unfold restricted. rewrite H.
    rewrite String.eqb_refl, andb_false_r. reflexivity.
  - intros H1 H2. assert (Hr : restricted c schema = true)
      by (apply restricted_true; tauto).
    intros first again. subst first again.
    rewrite !isSkipedSchema_eq, Hr.
    destruct (range_found schema s) eqn:Hf; unfold value, skiped, calls; simpl.
    + apply range_found_In in Hf. rewrite (proj2 (range_found_In schema s) Hf).
      repeat split; auto. tauto.
    + assert (Hin : In schema (s ++ [schema]))
        by (rewrite in_app_iff; simpl; tauto).
      rewrite (proj2 (range_found_In _ _) Hin).
      apply range_found_not_In in Hf. repeat split; auto. tauto.
Qed.

Definition app_canal : Canal := mkCanal "app" "mysql-bin.000001" 4.

Lemma isSkipedSchema_decision_witness :
  (isSkipedSchema (mkCanal "" "mysql-bin.000001" 4) "other" [] = (false, [], [])) /\
  (isSkipedSchema app_canal "app" [] = (false, [], [])) /\
  value (isSkipedSchema app_canal "other" []) = true /\
  calls (isSkipedSchema app_canal "other" [])
  = [Call_log (Info_skiped "other" "app")] /\
  isSkipedSchema app_canal "other" (skiped (isSkipedSchema app_canal "other" []))
  = (true, ["other"], []).
Proof.
  destruct (isSkipedSchema_decision (mkCanal "" "mysql-bin.000001" 4) "other" [])
    as [H1 _].
  destruct (isSkipedSchema_decision app_canal "app" []) as [_ [H2 _]].
  destruct (isSkipedSchema_decision app_canal "other" []) as [_ [_ H3]].
  split; [apply H1; reflexivity|].
  split; [apply H2; reflexivity|].
  destruct H3 as [Hv [_ [Hc [_ Ha]]]];
    [simpl; discriminate | simpl; discriminate |].
  split; [exact Hv|].
  split; [apply Hc; simpl; tauto | exact Ha].
Defined.

(** ** The row event translator *)

(** What a call of [handleRowsEvent] does, by cases. *)
Lemma handleRowsEvent_eq (c : Canal) (r : Responses) (h : EventHeader)
    (ev : RowsEvent) (s : list string) :
  handleRowsEvent c r h ev s =
  if restricted c (Table_Schema ev) then
    (None, skiped (isSkipedSchema c (Table_Schema ev) s),
     calls (isSkipedSchema c (Table_Schema ev) s))
  else
    match on_GetTable r with
    | inr err =>
        (Some (Trace err), s, [Call_GetTable (Table_Schema ev) (Table_Table ev)])
    | inl t =>
        match action_of (EventType_ h) with
        | None =>
            (Some (NotSupported (EventType_ h)), s,
             [Call_GetTable (Table_Schema ev) (Table_Table ev)])
        | Some action =>
            (on_travelRowsEventHandler r, s,
             [Call_GetTable (Table_Schema ev) (Table_Table ev);
              Call_travelRowsEventHandler (newRowsEvent t action (Rows ev))])
        end
    end.
Proof.
  unfold handleRowsEvent, bind. rewrite isSkipedSchema_eq.
  destruct (restricted c (Table_Schema ev)).
  - destruct (range_found (Table_Schema ev) s); reflexivity.
  - simpl. destruct (on_GetTable r) as [t|err]; [|reflexivity].
    destruct (action_of (EventType_ h)); reflexivity.
Qed.

Lemma action_of_cases (t : EventType) :
  action_of t =
  if (t =? 23) || (t =? 30) then Some InsertAction
  else if (t =? 25) || (t =? 32) then Some DeleteAction
  else if (t =? 24) || (t =? 31) then Some UpdateAction
  else None.
Proof. reflexivity. Qed.

(** ** The loop body *)

Definition is_tracker_or_sink (c : Call) : bool :=
  match c with
  | Call_master_Update _ _ | Call_master_Save _ | Call_SavePos _ _ => true
  | _ => false
  end.

(** The calls that the iteration makes on the position tracker and on the
    master-info sink, in order. *)
Definition tracker_calls (t : list Call) : list Call :=
  filter is_tracker_or_sink t.

(** What [save_step] does, by cases. *)
Lemma save_step_eq (r : Responses) (l : Locals) (s : list string) :
  save_step r l s =
  let l' := set_posSaved (fst (on_master_Save r)) l in
  let upd := [Call_master_Update (Name (pos l)) (Pos (pos l));
              Call_master_Save (forceSavePos l)] in
  let sav := Call_SavePos (Name (pos l)) (Pos (pos l)) in
  match on_master_Save r, on_getMasterInfoHandler r with
  | (_, Some err), _ => (Return (Trace err), s, upd)
  | (false, None), _ => (Continue l', s, upd)
  | (true, None), None => (Continue l', s, upd)
  | (true, None), Some None => (Continue l', s, upd ++ [sav])
  | (true, None), Some (Some err) => (Return err, s, upd ++ [sav])
  end.
Proof.
  unfold save_step, bind, call, ret.
  destruct (on_master_Save r) as [[|] [err|]]; simpl; try reflexivity.
  destruct (on_getMasterInfoHandler r) as [[err|]|]; reflexivity.
Qed.

(** An iteration touches the list of skipped schemas through
    [isSkipedSchema] only. *)
Lemma iteration_skiped (c : Canal) (g : BinlogEvent + error) (r : Responses)
    (l : Locals) (s : list string) :
  skiped (iteration c g r l s) =
  match g with
  | inl (mkEvent _ (ERows e)) => skiped (isSkipedSchema c (Table_Schema e) s)
  | _ => s
  end.
Proof.
  unfold iteration, bind. simpl.
  destruct g as [[h ev]|err]; simpl.
  - destruct ev as [e|e| |e|k]; simpl.
    + rewrite save_step_eq.
      destruct (on_master_Save r) as [[|] [?|]];
        destruct (on_getMasterInfoHandler r) as [[?|]|]; reflexivity.
    + rewrite handleRowsEvent_eq.
      destruct (restricted c (Table_Schema e)) eqn:Hr.
      * reflexivity.
      * rewrite isSkipedSchema_eq, Hr.
        destruct (on_GetTable r); [destruct (action_of _)|];
          try destruct (on_travelRowsEventHandler r); reflexivity.
    + rewrite save_step_eq.
      destruct (on_master_Save r) as [[|] [?|]];
        destruct (on_getMasterInfoHandler r) as [[?|]|]; reflexivity.
    + destruct (expAlterTable_FindSubmatch (Query e)); [|reflexivity].
      simpl. rewrite save_step_eq.
      destruct (on_master_Save r) as [[|] [?|]];
        destruct (on_getMasterInfoHandler r) as [[?|]|]; reflexivity.
    + reflexivity.
  - destruct (is_DeadlineExceeded err); reflexivity.
Qed.

(** The loop variables after the statements that every received event
    runs (lines 50 to 55). *)
Definition received (l : Locals) (ev : BinlogEvent) : Locals :=
  mkLocals (mkPosition (Name (pos l)) (LogPos (Header ev)))
           Duration.Second false (posSaved l).

(** The loop variables in the Rotate branch. *)
Definition rotated (l : Locals) (e : RotateEvent) : Locals :=
  mkLocals (mkPosition (NextLogName e) (uint32 (Position_ e)))
           Duration.Second true (posSaved l).

(** The schema and table that the Query branch passes on. *)
Definition altered (e : QueryEvent) (mb : list string) : string * string :=
  (if (String.length (nth 1 mb "") =? 0)%nat then Schema e else nth 1 mb "",
   nth 2 mb "").

(** An iteration that received an event, by the type of the event. *)
Lemma iteration_event_eq (c : Canal) (ev : BinlogEvent) (r : Responses)
    (l : Locals) (s : list string) :
  iteration c (inl ev) r l s =
  let ge := Call_GetEvent (getEvent_wait l) in
  match Event_ ev with
  | ERotate e =>
      let y := save_step r (rotated l e) s in
      (value y, skiped y, ge :: Call_log (Info_rotate (pos (rotated l e))) :: calls y)
  | ERows e =>
      let y := handleRowsEvent c r (Header ev) e s in
      match value y with
      | Some err =>
          (Return (Trace err), skiped y,
           ge :: calls y ++ [Call_log (Error_handle_rows err)])
      | None => (Continue (received l ev), skiped y, ge :: calls y)
      end
  | EXID =>
      let y := save_step r (received l ev) s in
      (value y, skiped y, ge :: calls y)
  | EQuery e =>
      match expAlterTable_FindSubmatch (Query e) with
      | Some mb =>
          let y := save_step r (set_forceSavePos true (received l ev)) s in
          (value y, skiped y,
           ge :: Call_ClearTableCache (fst (altered e mb)) (snd (altered e mb))
              :: Call_log (Info_table_changed (fst (altered e mb)) (snd (altered e mb)))
              :: calls y)
      | None => (Continue (received l ev), s, [ge])
      end
  | OtherEvent _ => (Continue (received l ev), s, [ge])
  end.
Proof.
  unfold iteration, bind, call, ret, value, skiped, calls, rotated, received,
    set_pos, set_forceSavePos, set_timeout.
  simpl.
  destruct (Event_ ev) as [e|e| |e|k]; simpl.
  - destruct (save_step r _ s) as [[o s1] t1]. reflexivity.
  - destruct (handleRowsEvent c r (Header ev) e s) as [[[err|] s1] t1]; simpl.
    + reflexivity.
    + rewrite app_nil_r. reflexivity.
  - destruct (save_step r _ s) as [[o s1] t1]. reflexivity.
  - destruct (expAlterTable_FindSubmatch (Query e)) as [mb|]; [|reflexivity].
    simpl. destruct (save_step r _ s) as [[o s1] t1]. reflexivity.
  - reflexivity.
Qed.

(** An iteration whose [GetEvent] returned an error. *)
Lemma iteration_error_eq (c : Canal) (err : error) (r : Responses)
    (l : Locals) (s : list string) :
  iteration c (inr err) r l s =
  (if is_DeadlineExceeded err
   then Continue (set_timeout (Duration.mul 2 (timeout l)) l)
   else Return (Trace err),
   s, [Call_GetEvent (getEvent_wait l)]).
Proof.
  unfold iteration, bind, call, ret. simpl.
  destruct (is_DeadlineExceeded err); reflexivity.
Qed.

(** One more answer at the head of a run. *)
Lemma run_cons (c : Canal) (g : BinlogEvent + error) (r : Responses)
    (rest : list ((BinlogEvent + error) * Responses)) (l : Locals)
    (s : list string) :
  run c ((g, r) :: rest) l s =
  match value (iteration c g r l s) with
  | Continue l' =>
      let y := run c rest l' (skiped (iteration c g r l s)) in
      (value y, skiped y, calls (iteration c g r l s) ++ calls y)
  | Return e =>
      (Return e, skiped (iteration c g r l s), calls (iteration c g r l s))
  end.
Proof.
  cbn [run]. unfold bind, ret, value, skiped, calls.
  destruct (iteration c g r l s) as [[[l'|e] s1] t1]; simpl.
  - destruct (run c rest l' s1) as [[o s2] t2]. reflexivity.
  - rewrite app_nil_r. reflexivity.
Qed.

(** The calls of [save_step] on the tracker and the sink. *)
Definition save_calls (r : Responses) (p : Position) (forced : bool) : list Call :=
  [Call_master_Update (Name p) (Pos p); Call_master_Save forced] ++
  match on_master_Save r, on_getMasterInfoHandler r with
  | (true, None), Some _ => [Call_SavePos (Name p) (Pos p)]
  | _, _ => []
  end.

Lemma save_step_calls (r : Responses) (l : Locals) (s : list string) :
  calls (save_step r l s) = save_calls r (pos l) (forceSavePos l) /\
  skiped (save_step r l s) = s.
Proof.
  rewrite save_step_eq. unfold save_calls.
  destruct (on_master_Save r) as [[|] [?|]];
    destruct (on_getMasterInfoHandler r) as [[?|]|]; split; reflexivity.
Qed.

Lemma tracker_calls_save_calls (r : Responses) (p : Position) (forced : bool) :
  tracker_calls (save_calls r p forced) = save_calls r p forced.
Proof.
  unfold save_calls.
  destruct (on_master_Save r) as [[|] [?|]];
    destruct (on_getMasterInfoHandler r) as [[?|]|]; reflexivity.
Qed.

Lemma handleRowsEvent_no_tracker (c : Canal) (r : Responses) (h : EventHeader)
    (e : RowsEvent) (s : list string) (extra : list Call) :
  tracker_calls (calls (handleRowsEvent c r h e s) ++ extra) = tracker_calls extra.
Proof.
  rewrite handleRowsEvent_eq, isSkipedSchema_eq.
  destruct (restricted c (Table_Schema e)).
  - destruct (range_found (Table_Schema e) s); reflexivity.
  - destruct (on_GetTable r); [destruct (action_of _)|]; reflexivity.
Qed.

(** The save point that an event stands for, if any: the position handed
    to the tracker and the forced flag. *)
Definition save_point (l : Locals) (ev : BinlogEvent) : option (Position * bool) :=
  match Event_ ev with
  | ERotate e => Some (mkPosition (NextLogName e) (uint32 (Position_ e)), true)
  | EXID => Some (mkPosition (Name (pos l)) (LogPos (Header ev)), false)
  | EQuery e =>
      match expAlterTable_FindSubmatch (Query e) with
      | Some _ => Some (mkPosition (Name (pos l)) (LogPos (Header ev)), true)
      | None => None
      end
  | ERows _ | OtherEvent _ => None
  end.

(** The calls of one iteration on the tracker and the sink, by the save
    point of the event. *)
Lemma iteration_tracker_calls (c : Canal) (ev : BinlogEvent) (r : Responses)
    (l : Locals) (s : list string) :
  let x := iteration c (inl ev) r l s in
  match save_point l ev with
  | Some (p, forced) => tracker_calls (calls x) = save_calls r p forced
  | None =>
      tracker_calls (calls x) = [] /\
      value x =
      match Event_ ev with
      | ERows e =>
          match value (handleRowsEvent c r (Header ev) e s) with
          | Some err => Return (Trace err)
          | None => Continue (received l ev)
          end
      | _ => Continue (received l ev)
      end
  end.
Proof.
  intros x. subst x.
  rewrite iteration_event_eq. unfold save_point.
  destruct (Event_ ev) as [e|e| |e|k]; cbv zeta.
  - destruct (save_step_calls r (rotated l e) s) as [Hc _].
    unfold calls at 1. simpl snd. change (tracker_calls (?a :: ?b :: ?t))
      with (tracker_calls t).
    rewrite Hc. apply tracker_calls_save_calls.
  - split.
    + destruct (value (handleRowsEvent c r (Header ev) e s)); unfold calls at 1;
        simpl snd; change (tracker_calls (?a :: ?t)) with (tracker_calls t).
      * apply handleRowsEvent_no_tracker.
      * rewrite <- (app_nil_r (calls _)). apply handleRowsEvent_no_tracker.
    + destruct (value (handleRowsEvent c r (Header ev) e s)); reflexivity.
  - destruct (save_step_calls r (received l ev) s) as [Hc _].
    unfold calls at 1. simpl snd. change (tracker_calls (?a :: ?t))
      with (tracker_calls t).
    rewrite Hc. apply tracker_calls_save_calls.
  - destruct (expAlterTable_FindSubmatch (Query e)) as [mb|].
    + destruct (save_step_calls r (set_forceSavePos true (received l ev)) s)
        as [Hc _].
      unfold calls at 1. simpl snd.
      change (tracker_calls (?a :: ?b :: ?d :: ?t)) with (tracker_calls t).
      rewrite Hc. apply tracker_calls_save_calls.
    + split; reflexivity.
  - split; reflexivity.
Qed.

(** Over a whole run: every call that reaches the tracker or the sink is
    one of the calls of the save step of an iteration whose event is a save
    point. *)
Lemma run_tracker_calls (c : Canal)
    (answers : list ((BinlogEvent + error) * Responses)) :
  forall (l : Locals) (s : list string) (cl : Call),
    In cl (tracker_calls (calls (run c answers l s))) ->
    exists ev r l' p forced,
      In (inl ev, r) answers /\
      save_point l' ev = Some (p, forced) /\
      In cl (save_calls r p forced).
Proof.
  induction answers as [|[g r] rest IH]; intros l s cl Hin.
  - destruct Hin.
  - rewrite run_cons in Hin.
    assert (Hhere : In cl (tracker_calls (calls (iteration c g r l s))) ->
                    exists ev r0 l' p forced,
                      In (inl ev, r0) ((g, r) :: rest) /\
                      save_point l' ev = Some (p, forced) /\
                      In cl (save_calls r0 p forced)).
    { destruct g as [ev|err].
      - pose proof (iteration_tracker_calls c ev r l s) as Hi. cbv zeta in Hi.
        destruct (save_point l ev) as [[p forced]|] eqn:Hp.
        + rewrite Hi. intros H. exists ev, r, l, p, forced.
          split; [left; reflexivity | split; assumption].
        + destruct Hi as [Hi _]. rewrite Hi. intros [].
      - rewrite iteration_error_eq. intros []. }
    destruct (value (iteration c g r l s)) as [l'|e].
    + cbv zeta in Hin. unfold calls at 1 in Hin. simpl snd in Hin.
      unfold tracker_calls in Hin. rewrite filter_app, in_app_iff in Hin.
      destruct Hin as [Hin|Hin]; [exact (Hhere Hin)|].
      destruct (IH _ _ _ Hin) as (ev & r0 & l0 & p & forced & Ha & Hp & Hc).
      exists ev, r0, l0, p, forced. split; [right; exact Ha | split; assumption].
    + exact (Hhere Hin).
Qed.

(** C1: an iteration of the sync loop that received an event reaches the
    save step (tracker Update, tracker Save with the forced flag, and SavePos
    on the master-info sink when Save reports a persist) exactly for Rotate
    events, XID events and Query events that match the ALTER TABLE pattern,
    with forced = true for Rotate and ALTER TABLE and forced = false for XID;
    for every other event, and when no event was received, no call reaches the
    tracker or the sink, and the iteration continues unless the handling of a
    rows event returned an error.  So in every run, every call on the tracker
    or the sink belongs to the save step of such an event. *)
Theorem save_step_exactly_at_boundaries (c : Canal) (ev : BinlogEvent)
    (r : Responses) (l : Locals) (s : list string)
    (answers : list ((BinlogEvent + error) * Responses)) :
  let x := iteration c (inl ev) r l s in
  (* the three kinds of event that are save points, and their forced flag *)
  (forall e, Event_ ev = ERotate e ->
     save_point l ev = Some (mkPosition (NextLogName e) (uint32 (Position_ e)), true)) /\
  (Event_ ev = EXID ->
     save_point l ev = Some (mkPosition (Name (pos l)) (LogPos (Header ev)), false)) /\
  (forall e, Event_ ev = EQuery e ->
     save_point l ev =
     match expAlterTable_FindSubmatch (Query e) with
     | Some _ => Some (mkPosition (Name (pos l)) (LogPos (Header ev)), true)
     | None => None
     end) /\
  ((forall e, Event_ ev <> ERotate e) -> Event_ ev <> EXID ->
   (forall e, Event_ ev <> EQuery e) -> save_point l ev = None) /\
  (* what reaches the tracker and the sink in one iteration *)
  match save_point l ev with
  | Some (p, forced) =>
      tracker_calls (calls x) =
      [Call_master_Update (Name p) (Pos p); Call_master_Save forced] ++
      match on_master_Save r, on_getMasterInfoHandler r with
      | (true, None), Some _ => [Call_SavePos (Name p) (Pos p)]
      | _, _ => []
      end
  | None =>
      tracker_calls (calls x) = [] /\
      value x =
      match Event_ ev with
      | ERows e =>
          match value (handleRowsEvent c r (Header ev) e s) with
          | Some err => Return (Trace err)
          | None => Continue (received l ev)
          end
      | _ => Continue (received l ev)
      end
  end /\
  (* no event: a timeout or a failure of the transport *)
  (forall err, tracker_calls (calls (iteration c (inr err) r l s)) = []) /\
  (* in a whole run *)
  (forall cl,
     In cl (tracker_calls (calls (run c answers l s))) ->
     exists ev' r' l' p forced,
       In (inl ev', r') answers /\
       save_point l' ev' = Some (p, forced) /\
       In cl ([Call_master_Update (Name p) (Pos p); Call_master_Save forced] ++
              match on_master_Save r', on_getMasterInfoHandler r' with
              | (true, None), Some _ => [Call_SavePos (Name p) (Pos p)]
              | _, _ => []
              end)).
Proof.
  intros x. subst x.
  split; [intros e He; unfold save_point; rewrite He; reflexivity|].
  split; [intros He; unfold save_point; rewrite He; reflexivity|].
  split; [intros e He; unfold save_point; rewrite He; reflexivity|].
  split.
  { intros H1 H2 H3. unfold save_point.
    destruct (Event_ ev) as [e|e| |e|k]; try reflexivity.
    - elim (H1 e). reflexivity.
    - elim H2. reflexivity.
    - elim (H3 e). reflexivity. }
  split; [exact (iteration_tracker_calls c ev r l s)|].
  split; [intros err; rewrite iteration_error_eq; reflexivity|].
  intros cl Hin. exact (run_tracker_calls c answers l s cl Hin).
Qed.

(** ** Rows events of a skipped schema *)

(** C6, as amended: a rows event whose schema the filter skips advances the
    offset of the loop's position to the offset of the event header, makes no
    call to the table cache, the row handlers, the tracker or the sink, and
    continues; besides the offset, the backoff timeout and the forced flag are
    reset as for every received event, and the filter itself, on the first
    sight of the schema, appends it to the shared list and logs its note. *)
Theorem skipped_rows_event_frame (c : Canal) (h : EventHeader) (e : RowsEvent)
    (r : Responses) (l : Locals) (s : list string)
    (Hskip : value (isSkipedSchema c (Table_Schema e) s) = true) :
  let x := iteration c (inl (mkEvent h (ERows e))) r l s in
  let note := Call_log (Info_skiped (Table_Schema e) (cfg_Dump_TableDB c)) in
  value x =
    Continue (mkLocals (mkPosition (Name (pos l)) (LogPos h))
                       Duration.Second false (posSaved l)) /\
  (In (Table_Schema e) s ->
     skiped x = s /\ calls x = [Call_GetEvent (getEvent_wait l)]) /\
  (~ In (Table_Schema e) s ->
     skiped x = s ++ [Table_Schema e] /\
     calls x = [Call_GetEvent (getEvent_wait l); note]).
Proof.
  intros x note. subst x note.
  assert (Hr : restricted c (Table_Schema e) = true).
  { rewrite isSkipedSchema_eq in Hskip.
    destruct (restricted c (Table_Schema e)); [reflexivity | discriminate]. }
  rewrite iteration_event_eq. cbv beta iota zeta delta [Event_ Header].
  rewrite handleRowsEvent_eq, Hr, isSkipedSchema_eq, Hr.
  split; [|split].
  - destruct (range_found (Table_Schema e) s); reflexivity.
  - intros Hin. apply range_found_In in Hin. rewrite Hin. split; reflexivity.
  - intros Hin. apply range_found_not_In in Hin. rewrite Hin. split; reflexivity.
Qed.

Definition other_rows : BinlogEvent :=
  mkEvent (mkHeader WRITE_ROWS_EVENTv2 1200)
          (ERows (mkRows "other" "t" [["1"; "a"]])).

Definition quiet : Responses :=
  mkResponses (inl (mkTable "app" "t" ["id"; "v"])) None (false, None) None.

Definition at_start : Locals :=
  mkLocals (mkPosition "mysql-bin.000001" 4) Duration.Second false false.

Lemma skipped_rows_event_frame_witness :
  value (iteration app_canal (inl other_rows) quiet at_start [])
  = Continue (mkLocals (mkPosition "mysql-bin.000001" 1200)
                       Duration.Second false false) /\
  skiped (iteration app_canal (inl other_rows) quiet at_start ["other"])
  = ["other"] /\
  calls (iteration app_canal (inl other_rows) quiet at_start [])
  = [Call_GetEvent 2000000000; Call_log (Info_skiped "other" "app")].
Proof.
  split; [|split].
  - apply (skipped_rows_event_frame app_canal (mkHeader WRITE_ROWS_EVENTv2 1200)
             (mkRows "other" "t" [["1"; "a"]]) quiet at_start []).
    reflexivity.
  - apply (skipped_rows_event_frame app_canal (mkHeader WRITE_ROWS_EVENTv2 1200)
             (mkRows "other" "t" [["1"; "a"]]) quiet at_start ["other"]).
    + reflexivity.
    + simpl. tauto.
  - apply (skipped_rows_event_frame app_canal (mkHeader WRITE_ROWS_EVENTv2 1200)
             (mkRows "other" "t" [["1"; "a"]]) quiet at_start []).
    + reflexivity.
    + simpl. tauto.
Defined.

(** C6, as stated, fails: on the first rows event of an out-of-scope schema
    the loop variables other than the offset keep their values, yet the shared
    list of skipped schemas changes from empty to that schema and a log line
    is written. *)
Lemma skipped_rows_event_changes_skip_list :
  value (isSkipedSchema app_canal "other" []) = true /\
  value (iteration app_canal (inl other_rows) quiet at_start [])
  = Continue (set_pos (mkPosition (Name (pos at_start)) 1200) at_start) /\
  skiped (iteration app_canal (inl other_rows) quiet at_start []) = ["other"] /\
  skiped (iteration app_canal (inl other_rows) quiet at_start []) <> [] /\
  In (Call_log (Info_skiped "other" "app"))
     (calls (iteration app_canal (inl other_rows) quiet at_start [])).
Proof.
  repeat split.
  - discriminate.
  - vm_compute. tauto.
Qed.

(** ** Row actions *)

Definition row_event_types : list EventType :=
  [WRITE_ROWS_EVENTv1; WRITE_ROWS_EVENTv2;
   DELETE_ROWS_EVENTv1; DELETE_ROWS_EVENTv2;
   UPDATE_ROWS_EVENTv1; UPDATE_ROWS_EVENTv2].

Lemma action_of_None (t : EventType) :
  ~ In t row_event_types -> action_of t = None.
Proof.
  intros Hn. rewrite action_of_cases.
  repeat match goal with
         | |- context [(t =? ?k)] =>
             destruct (Z.eqb_spec t k) as [->|_];
             [exfalso; apply Hn; unfold row_event_types; simpl; tauto|]
         end.
  reflexivity.
Qed.

(** C4: once the schema has passed the filter and the table is resolved,
    the translator maps both write-rows subtypes to Insert, both delete-rows
    subtypes to Delete and both update-rows subtypes to Update, and hands the
    record built with that action to the row handlers; every other subtype
    gives the not-supported error, on which the sync loop returns. *)
Theorem row_action_mapping (c : Canal) (r : Responses) (h : EventHeader)
    (e : RowsEvent) (t : Table) (s : list string)
    (Hscope : value (isSkipedSchema c (Table_Schema e) s) = false)
    (Htable : on_GetTable r = inl t) :
  let dispatched a :=
    handleRowsEvent c r h e s =
    (on_travelRowsEventHandler r, s,
     [Call_GetTable (Table_Schema e) (Table_Table e);
      Call_travelRowsEventHandler (newRowsEvent t a (Rows e))]) in
  (EventType_ h = WRITE_ROWS_EVENTv1 \/ EventType_ h = WRITE_ROWS_EVENTv2 ->
   dispatched InsertAction) /\
  (EventType_ h = DELETE_ROWS_EVENTv1 \/ EventType_ h = DELETE_ROWS_EVENTv2 ->
   dispatched DeleteAction) /\
  (EventType_ h = UPDATE_ROWS_EVENTv1 \/ EventType_ h = UPDATE_ROWS_EVENTv2 ->
   dispatched UpdateAction) /\
  (~ In (EventType_ h) row_event_types ->
   handleRowsEvent c r h e s =
   (Some (NotSupported (EventType_ h)), s,
    [Call_GetTable (Table_Schema e) (Table_Table e)]) /\
   forall l rest,
     run c ((inl (mkEvent h (ERows e)), r) :: rest) l s =
     (Return (Trace (NotSupported (EventType_ h))), s,
      [Call_GetEvent (getEvent_wait l);
       Call_GetTable (Table_Schema e) (Table_Table e);
       Call_log (Error_handle_rows (NotSupported (EventType_ h)))])).
Proof.
  assert (Hr : restricted c (Table_Schema e) = false).
  { rewrite isSkipedSchema_eq in Hscope.
    destruct (restricted c (Table_Schema e)); [|reflexivity].
    destruct (range_found (Table_Schema e) s); discriminate. }
  cbv zeta. rewrite handleRowsEvent_eq, Hr, Htable.
  split; [|split; [|split]].
  - intros [H|H]; rewrite H; reflexivity.
  - intros [H|H]; rewrite H; reflexivity.
  - intros [H|H]; rewrite H; reflexivity.
  - intros Hn. rewrite (action_of_None _ Hn). split; [reflexivity|].
    intros l rest. cbn [run]. unfold bind at 1.
    rewrite iteration_event_eq. cbv beta iota zeta delta [Event_ Header].
    rewrite handleRowsEvent_eq, Hr, Htable, (action_of_None _ Hn).
    reflexivity.
Qed.

Definition app_rows (t : EventType) : BinlogEvent :=
  mkEvent (mkHeader t 1200) (ERows (mkRows "app" "t" [["1"; "a"]])).

Lemma row_action_mapping_witness :
  handleRowsEvent app_canal quiet (mkHeader WRITE_ROWS_EVENTv1 1200)
    (mkRows "app" "t" [["1"; "a"]]) []
  = (None, [],
     [Call_GetTable "app" "t";
      Call_travelRowsEventHandler
        (newRowsEvent (mkTable "app" "t" ["id"; "v"]) InsertAction [["1"; "a"]])]) /\
  handleRowsEvent app_canal quiet (mkHeader 20 1200)
    (mkRows "app" "t" [["1"; "a"]]) []
  = (Some (NotSupported 20), [], [Call_GetTable "app" "t"]).
Proof.
  split.
  - apply (row_action_mapping app_canal quiet (mkHeader WRITE_ROWS_EVENTv1 1200)
             (mkRows "app" "t" [["1"; "a"]]) (mkTable "app" "t" ["id"; "v"]) []);
      [reflexivity | reflexivity | left; reflexivity].
  - apply (row_action_mapping app_canal quiet (mkHeader 20 1200)
             (mkRows "app" "t" [["1"; "a"]]) (mkTable "app" "t" ["id"; "v"]) []);
      [reflexivity | reflexivity |].
    unfold row_event_types. simpl. intros [H|[H|[H|[H|[H|[H|[]]]]]]]; discriminate.
Defined.

(** ** Errors *)

(** C7: a failure of the transport other than the deadline, a failure of a
    row handler, a row subtype that is not supported, a failure of the
    tracker's Save and a failure of the sink's SavePos each make the loop
    return the error at once: whatever the collaborators would answer next is
    never asked for.  Only the deadline of the pull makes the loop go on. *)
Theorem fatal_errors_end_the_loop (c : Canal) (r : Responses) (l : Locals)
    (s : list string) (rest : list ((BinlogEvent + error) * Responses)) :
  (* transport *)
  (forall err, is_DeadlineExceeded err = false ->
     run c ((inr err, r) :: rest) l s =
     (Return (Trace err), s, [Call_GetEvent (getEvent_wait l)])) /\
  (* row handler *)
  (forall h e t a err,
     restricted c (Table_Schema e) = false ->
     on_GetTable r = inl t ->
     action_of (EventType_ h) = Some a ->
     on_travelRowsEventHandler r = Some err ->
     run c ((inl (mkEvent h (ERows e)), r) :: rest) l s =
     (Return (Trace err), s,
      [Call_GetEvent (getEvent_wait l);
       Call_GetTable (Table_Schema e) (Table_Table e);
       Call_travelRowsEventHandler (newRowsEvent t a (Rows e));
       Call_log (Error_handle_rows err)])) /\
  (* row subtype *)
  (forall h e t,
     restricted c (Table_Schema e) = false ->
     on_GetTable r = inl t ->
     ~ In (EventType_ h) row_event_types ->
     run c ((inl (mkEvent h (ERows e)), r) :: rest) l s =
     (Return (Trace (NotSupported (EventType_ h))), s,
      [Call_GetEvent (getEvent_wait l);
       Call_GetTable (Table_Schema e) (Table_Table e);
       Call_log (Error_handle_rows (NotSupported (EventType_ h)))])) /\
  (* tracker Save *)
  (forall ev p forced saved err,
     save_point l ev = Some (p, forced) ->
     on_master_Save r = (saved, Some err) ->
     let x := run c ((inl ev, r) :: rest) l s in
     value x = Return (Trace err) /\
     tracker_calls (calls x) =
     [Call_master_Update (Name p) (Pos p); Call_master_Save forced] /\
     calls x = calls (iteration c (inl ev) r l s)) /\
  (* sink SavePos *)
  (forall ev p forced err,
     save_point l ev = Some (p, forced) ->
     on_master_Save r = (true, None) ->
     on_getMasterInfoHandler r = Some (Some err) ->
     let x := run c ((inl ev, r) :: rest) l s in
     value x = Return err /\
     tracker_calls (calls x) =
     [Call_master_Update (Name p) (Pos p); Call_master_Save forced;
      Call_SavePos (Name p) (Pos p)] /\
     calls x = calls (iteration c (inl ev) r l s)) /\
  (* deadline of the pull *)
  (let y := run c rest (set_timeout (Duration.mul 2 (timeout l)) l) s in
   run c ((inr DeadlineExceeded, r) :: rest) l s =
   (value y, skiped y, Call_GetEvent (getEvent_wait l) :: calls y)).
Proof.
  split; [|split; [|split; [|split; [|split]]]].
  - intros err Hd. rewrite run_cons, iteration_error_eq, Hd. reflexivity.
  - intros h e t a err Hr Ht Ha He.
    rewrite run_cons, iteration_event_eq.
    cbv beta iota zeta delta [Event_ Header].
    rewrite handleRowsEvent_eq, Hr, Ht, Ha, He. reflexivity.
  - intros h e t Hr Ht Hn.
    rewrite run_cons, iteration_event_eq.
    cbv beta iota zeta delta [Event_ Header].
    rewrite handleRowsEvent_eq, Hr, Ht, (action_of_None _ Hn). reflexivity.
  - intros ev p forced saved err Hp Hs x. subst x.
    rewrite run_cons, iteration_event_eq. revert Hp. unfold save_point.
    destruct (Event_ ev) as [e|e| |e|k]; try discriminate;
      [| |destruct (expAlterTable_FindSubmatch (Query e)); [|discriminate]];
      intros [= <- <-]; cbv zeta; rewrite save_step_eq, Hs;
      destruct saved; repeat split.
  - intros ev p forced err Hp Hs Hh x. subst x.
    rewrite run_cons, iteration_event_eq. revert Hp. unfold save_point.
    destruct (Event_ ev) as [e|e| |e|k]; try discriminate;
      [| |destruct (expAlterTable_FindSubmatch (Query e)); [|discriminate]];
      intros [= <- <-]; cbv zeta; rewrite save_step_eq, Hs, Hh;
      repeat split.
  - cbv zeta. rewrite run_cons, iteration_error_eq. reflexivity.
Qed.

Definition failing : Responses :=
  mkResponses (inl (mkTable "app" "t" ["id"; "v"])) (Some (External "handler"))
              (true, None) (Some (Some (External "sink"))).

Definition xid : BinlogEvent := mkEvent (mkHeader 16 1500) EXID.

Lemma fatal_errors_end_the_loop_witness :
  run app_canal [(inr (External "read"), quiet); (inl xid, quiet)] at_start []
  = (Return (Trace (External "read")), [], [Call_GetEvent 2000000000]) /\
  value (run app_canal [(inl (app_rows 30), failing); (inl xid, quiet)] at_start [])
  = Return (Trace (External "handler")) /\
  value (run app_canal [(inl (app_rows 20), failing); (inl xid, quiet)] at_start [])
  = Return (Trace (NotSupported 20)) /\
  value (run app_canal [(inl xid, failing); (inl xid, quiet)] at_start [])
  = Return (External "sink").
Proof.
  destruct (fatal_errors_end_the_loop app_canal quiet at_start [] [(inl xid, quiet)])
    as [H1 _].
  destruct (fatal_errors_end_the_loop app_canal failing at_start [] [(inl xid, quiet)])
    as [_ [H2 [H3 [_ [H5 _]]]]].
  split; [apply H1; reflexivity|].
  split.
  { unfold app_rows.
    rewrite (H2 (mkHeader 30 1200) (mkRows "app" "t" [["1"; "a"]])
               (mkTable "app" "t" ["id"; "v"]) InsertAction (External "handler"));
      reflexivity. }
  split.
  { unfold app_rows.
    rewrite (H3 (mkHeader 20 1200) (mkRows "app" "t" [["1"; "a"]])
               (mkTable "app" "t" ["id"; "v"])); try reflexivity.
    unfold row_event_types. simpl.
    intros [H|[H|[H|[H|[H|[H|[]]]]]]]; discriminate. }
  apply (H5 xid (mkPosition "mysql-bin.000001" 1500) false (External "sink"));
    reflexivity.
Defined.

(** ** The ALTER TABLE detector *)

Definition query_event (logpos : Z) (schema text : string) : BinlogEvent :=
  mkEvent (mkHeader 2 logpos) (EQuery (mkQuery schema text)).

Lemma find_quoted :
  expAlterTable_FindSubmatch "ALTER TABLE `shop`.`orders` ADD COLUMN x INT"
  = Some ["ALTER TABLE `shop`.`orders` ADD COLUMN x INT"; "shop"; "orders"].
Proof. vm_compute. reflexivity. Qed.

Lemma find_unqualified :
  expAlterTable_FindSubmatch "ALTER TABLE orders RENAME COLUMN ..."
  = Some ["ALTER TABLE orders RENAME COLUMN ..."; ""; "orders"].
Proof. vm_compute. reflexivity. Qed.



(** *** Statements of the general form *)

Section Detector.

Variable R : Type.

(** The equation of [rep]. *)
Lemma rep_eq (greedy : bool) (p : cls) (lo : nat) (hi : option nat)
    (s : list ascii) (pos : nat) (k : list ascii -> nat -> option R) :
  rep greedy p lo hi s pos k =
  let more :=
    match hi with
    | Some O => None
    | _ =>
        match s with
        | c :: s' =>
            if accepts p c
            then rep greedy p (Nat.pred lo) (option_map Nat.pred hi) s' (S pos) k
            else None
        | [] => None
        end
    end in
  let stop := match lo with O => k s pos | S _ => None end in
  if greedy
  then match more with Some x => Some x | None => stop end
  else match stop with Some x => Some x | None => more end.
Proof. destruct s; reflexivity. Qed.

Lemma run_opt_skip (p : cls) (c : ascii) (s : list ascii) (pos : nat)
    (caps : captures) (k : list ascii -> nat -> captures -> option R) :
  accepts p c = false ->
  Regexp.run (opt p) (c :: s) pos caps k = k (c :: s) pos caps.
Proof. intros H. unfold opt. cbn [Regexp.run]. rewrite rep_eq, H. reflexivity. Qed.

Lemma run_opt_take (p : cls) (c : ascii) (s : list ascii) (pos : nat)
    (caps : captures) (k : list ascii -> nat -> captures -> option R) :
  accepts p c = true ->
  Regexp.run (opt p) (c :: s) pos caps k =
  match k s (S pos) caps with
  | Some x => Some x
  | None => k (c :: s) pos caps
  end.
Proof.
  intros H. unfold opt. cbn [Regexp.run]. rewrite rep_eq, H. cbv zeta.
  cbn [Nat.pred option_map]. rewrite rep_eq. reflexivity.
Qed.





End Detector.

(** The pattern by parts. *)
Definition keyword : list cls :=
  [Fold "a" "A"; Fold "l" "L"; Fold "t" "T"; Fold "e" "E"; Fold "r" "R"; Space;
   Fold "t" "T"; Fold "a" "A"; Fold "b" "B"; Fold "l" "L"; Fold "e" "E"; Space]%char.

Fixpoint ones (ps : list cls) (r : re) : re :=
  match ps with
  | [] => r
  | p :: ps' => Cat (One p) (ones ps' r)
  end.

Definition table_class : cls := NoneOf ["`"; "."]%char.
Definition after_table : re := cat [opt (Lit "`"); One Space; star Dot].
Definition table_part : re := Cat (Cap 2 (lazy_plus table_class)) after_table.
Definition after_schema : re :=
  Cat (opt (Lit "`")) (Cat (opt (Lit ".")) (Cat (opt (Lit "`")) table_part)).
Definition names_part : re :=
  Cat (lazy_star Dot)
      (Cat (opt (Lit "`")) (Cat (Cap 1 (lazy_star Dot)) after_schema)).

Lemma expAlterTable_parts : expAlterTable = Cat Bol (ones keyword names_part).
Proof. reflexivity. Qed.

(** [spelled ps s]: [s] is the characters of [ps], one for one. *)
Fixpoint spelled (ps : list cls) (s : list ascii) : bool :=
  match ps, s with
  | [], [] => true
  | p :: ps', c :: s' => accepts p c && spelled ps' s'
  | _, _ => false
  end.

(** A character of a name: not a backtick, not a dot, not white space. *)
Definition name_char (c : ascii) : bool :=
  negb (accepts (Lit "`") c) && negb (accepts (Lit ".") c)
  && negb (accepts Space c).

Definition name (s : list ascii) : bool := forallb name_char s.


(** The continuation of [match_at]. *)
Definition found (text : list ascii) (start : nat)
    : list ascii -> nat -> captures -> option (list (list ascii)) :=
  fun _ pos' caps =>
    Some (firstn (pos' - start) text :: map (fun n => lookup n caps) (seq 1 2)).






Lemma run_Cat (r1 r2 : re) (s : list ascii) (pos : nat) (caps : captures)
    (k : list ascii -> nat -> captures -> option (list (list ascii))) :
  Regexp.run (Cat r1 r2) s pos caps k =
  Regexp.run r1 s pos caps (fun s' pos' caps' => Regexp.run r2 s' pos' caps' k).
Proof. reflexivity. Qed.




Lemma firstn_prefix (a b : list ascii) : firstn (List.length a) (a ++ b) = a.
Proof. induction a as [|c a IH]; cbn; [reflexivity | now rewrite IH]. Qed.















Lemma search_eq (r : re) (groups : nat) (s : list ascii) (pos : nat) :
  search r groups s pos =
  match match_at r groups s pos with
  | Some m => Some m
  | None =>
      match s with
      | [] => None
      | _ :: s' => search r groups s' (S pos)
      end
  end.
Proof. destruct s; reflexivity. Qed.

Lemma list_ascii_of_string_app (a b : string) :
  list_ascii_of_string (a ++ b)%string =
  list_ascii_of_string a ++ list_ascii_of_string b.
Proof. induction a as [|c a IH]; cbn; [reflexivity | now rewrite IH]. Qed.

Definition is_alter_table (kw : string) : bool :=
  spelled keyword (list_ascii_of_string kw).






Lemma search_Bol_later (r : re) (groups : nat) (s : list ascii) :
  forall pos, search (Cat Bol r) groups s (S pos) = None.
Proof.
  induction s as [|c s IH]; intros pos; rewrite search_eq; unfold match_at;
    cbn [Regexp.run]; [reflexivity | apply IH].
Qed.





(** ** The wait of the pull *)

(** A call of [GetEvent] is bounded by two seconds; other calls are not
    concerned. *)
Definition waits_two_seconds (cl : Call) : Prop :=
  match cl with
  | Call_GetEvent d => d = 2 * Duration.Second
  | _ => True
  end.

Lemma iteration_waits (c : Canal) (g : BinlogEvent + error) (r : Responses)
    (l : Locals) (s : list string) :
  Forall waits_two_seconds (calls (iteration c g r l s)).
Proof.
  destruct g as [ev|err].
  - rewrite iteration_event_eq.
    destruct (Event_ ev) as [e|e| |e|k]; cbv zeta;
      try (destruct (expAlterTable_FindSubmatch (Query e)));
      try rewrite save_step_eq;
      try (rewrite handleRowsEvent_eq, isSkipedSchema_eq;
           destruct (restricted c (Table_Schema e));
           [destruct (range_found (Table_Schema e) s)
           |destruct (on_GetTable r);
            [destruct (action_of _);
             [destruct (on_travelRowsEventHandler r)|]|]]);
      try (destruct (on_master_Save r) as [[|] [?|]];
           destruct (on_getMasterInfoHandler r) as [[?|]|]);
      repeat constructor.
  - rewrite iteration_error_eq. repeat constructor.
Qed.

Lemma run_waits (c : Canal) (answers : list ((BinlogEvent + error) * Responses)) :
  forall (l : Locals) (s : list string),
    Forall waits_two_seconds (calls (run c answers l s)).
Proof.
  induction answers as [|[g r] rest IH]; intros l s.
  - constructor.
  - rewrite run_cons. pose proof (iteration_waits c g r l s) as Hi.
    destruct (value (iteration c g r l s)) as [l'|e]; [|exact Hi].
    cbv zeta. unfold calls at 1. simpl snd.
    apply Forall_app. split; [exact Hi | apply IH].
Qed.

(** The variable [timeout] after [n] deadlines in a row. *)
Fixpoint doubled (n : nat) (d : Duration.t) : Duration.t :=
  match n with
  | O => d
  | S n' => doubled n' (Duration.mul 2 d)
  end.

Lemma run_deadlines (c : Canal) (r : Responses) (n : nat) :
  forall (l : Locals) (s : list string),
    run c (repeat (inr DeadlineExceeded, r) n) l s =
    (Continue (set_timeout (doubled n (timeout l)) l), s,
     repeat (Call_GetEvent (2 * Duration.Second)) n).
Proof.
  induction n as [|n IH]; intros l s.
  - destruct l. reflexivity.
  - cbn [repeat]. rewrite run_cons, iteration_error_eq.
    cbv beta iota zeta delta [is_DeadlineExceeded value skiped calls fst snd].
    rewrite IH. destruct l. reflexivity.
Qed.

Lemma doubled_pow2 (n : nat) :
  forall d : Duration.t,
    0 <= d -> 2 ^ Z.of_nat n * d < 2 ^ 63 ->
    doubled n d = 2 ^ Z.of_nat n * d.
Proof.
  induction n as [|n IH]; intros d Hd Hlt.
  - cbn [doubled]. change (2 ^ Z.of_nat 0) with 1. lia.
  - rewrite Nat2Z.inj_succ, Z.pow_succ_r in * by lia.
    assert (Hp : 0 < 2 ^ Z.of_nat n) by (apply Z.pow_pos_nonneg; lia).
    assert (H2 : Duration.mul 2 d = 2 * d).
    { unfold Duration.mul, Duration.wrap.
      rewrite Z.mod_small; [lia|].
      change (2 ^ 64) with (2 * 2 ^ 63). nia. }
    cbn [doubled]. rewrite H2, IH; lia.
Qed.

Lemma iteration_first_call (c : Canal) (g : BinlogEvent + error) (r : Responses)
    (l : Locals) (s : list string) :
  hd_error (calls (iteration c g r l s)) = Some (Call_GetEvent (getEvent_wait l)).
Proof.
  destruct g as [ev|err].
  - rewrite iteration_event_eq.
    destruct (Event_ ev) as [e|e| |e|k]; cbv zeta; try reflexivity.
    + destruct (value (handleRowsEvent c r (Header ev) e s)); reflexivity.
    + destruct (expAlterTable_FindSubmatch (Query e)); reflexivity.
  - rewrite iteration_error_eq. reflexivity.
Qed.

(** C2, on the code: the variable [timeout] is doubled by every deadline and
    set back to one second by every received event, as the claim says of the
    wait, but the pull never reads it: every call of [GetEvent], in every run,
    waits two seconds.  After [n] deadlines in a row from the start of the loop
    the variable holds [2^n] seconds and the next pull waits two seconds; for
    two deadlines that is four seconds against two.  After a received event
    the variable holds one second and the next pull waits two. *)
Theorem getEvent_wait_ignores_timeout (c : Canal)
    (answers : list ((BinlogEvent + error) * Responses))
    (r : Responses) (g : BinlogEvent + error) (h : EventHeader)
    (l : Locals) (s : list string) :
  let start := mkLocals (pos l) Duration.Second false false in
  Forall waits_two_seconds (calls (run c answers l s)) /\
  (* n deadlines in a row, then the next pull *)
  (forall n : nat, (n <= 33)%nat ->
     exists ln,
       value (run c (repeat (inr DeadlineExceeded, r) n) start s) = Continue ln /\
       timeout ln = 2 ^ Z.of_nat n * Duration.Second /\
       hd_error (calls (iteration c g r ln s))
       = Some (Call_GetEvent (2 * Duration.Second))) /\
  (* two deadlines, then the third pull *)
  (exists l2,
     value (run c (repeat (inr DeadlineExceeded, r) 2) start s) = Continue l2 /\
     timeout l2 = 4 * Duration.Second /\
     getEvent_wait l2 = 2 * Duration.Second /\
     getEvent_wait l2 <> timeout l2) /\
  (* a received event of a kind that the loop ignores, then the next pull *)
  (exists l1,
     value (iteration c (inl (mkEvent h (OtherEvent ""))) r l s) = Continue l1 /\
     timeout l1 = Duration.Second /\
     getEvent_wait l1 = 2 * Duration.Second /\
     getEvent_wait l1 <> timeout l1).
Proof.
  intros start.
  split; [apply run_waits|].
  split; [|split].
  - intros n Hn. rewrite run_deadlines. eexists. split; [reflexivity|].
    split; [|apply iteration_first_call].
    cbn [timeout set_timeout start]. apply doubled_pow2.
    + unfold Duration.Second. lia.
    + apply Z.le_lt_trans with (2 ^ 33 * Duration.Second).
      * apply Z.mul_le_mono_nonneg_r; [unfold Duration.Second; lia|].
        apply Z.pow_le_mono_r; lia.
      * reflexivity.
  - rewrite run_deadlines. eexists. split; [reflexivity|].
    repeat split. discriminate.
  - rewrite iteration_event_eq. eexists. split; [reflexivity|].
    repeat split. discriminate.
Qed.

(** ** WaitUntilPos *)

Section Polling.

Import Wait.

Variable curpos : nat -> Position.
Variable target : Position.

Lemma tick_value : tick = 100000000.
Proof. reflexivity. Qed.

Lemma seconds_in_range (timeout : Z) :
  0 < timeout <= 9223372036 ->
  Duration.mul timeout Duration.Second = Z.of_nat (Z.to_nat (10 * timeout)) * tick.
Proof.
  intros H. rewrite tick_value. unfold Duration.mul, Duration.wrap, Duration.Second.
  change (2 ^ 63) with 9223372036854775808.
  change (2 ^ 64) with 18446744073709551616.
  rewrite Z.mod_small by lia. rewrite Z2Nat.id by lia. lia.
Qed.

(** The tracker stays below the target for [n] polls from the [k]-th on,
    and the timer fires [n] ticks from now: the loop sleeps [n] times and
    returns the error when the timer fires. *)
Lemma poll_stuck (n : nat) :
  forall (fuel : nat) (now : Duration.t) (k : nat),
    (forall j, (j < n)%nat -> Compare (curpos (k + j)) target < 0) ->
    (n < fuel)%nat ->
    poll fuel curpos target (now + Z.of_nat n * tick) now k =
    Some (Some (WaitPosition target), now + Z.of_nat n * tick).
Proof.
  induction n as [|n IH]; intros fuel now k Hlow Hfuel.
  - destruct fuel as [|fuel]; [lia|]. cbn [poll]. simpl Z.of_nat.
    rewrite Z.mul_0_l, Z.add_0_r, Z.leb_refl. reflexivity.
  - destruct fuel as [|fuel]; [lia|]. cbn [poll].
    assert (Ht : 0 < tick) by (rewrite tick_value; lia).
    destruct (Z.leb_spec (now + Z.of_nat (S n) * tick) now) as [Hle|_];
      [nia|].
    specialize (Hlow 0%nat) as H0. rewrite Nat.add_0_r in H0.
    destruct (Z.leb_spec 0 (Compare (curpos k) target)) as [Hge|_];
      [specialize (H0 ltac:(lia)); lia|].
    replace (now + Z.of_nat (S n) * tick)
      with (now + tick + Z.of_nat n * tick) by lia.
    apply IH; [|lia].
    intros j Hj. replace (S k + j)%nat with (k + S j)%nat by lia.
    apply Hlow. lia.
Qed.

(** The tracker reaches the target at the [m]-th poll from the [k]-th on,
    before the timer fires: the loop sleeps [m] times and returns nil. *)
Lemma poll_reached (m : nat) :
  forall (fuel : nat) (deadline now : Duration.t) (k : nat),
    (forall j, (j < m)%nat -> Compare (curpos (k + j)) target < 0) ->
    0 <= Compare (curpos (k + m)) target ->
    now + Z.of_nat m * tick < deadline ->
    (m < fuel)%nat ->
    poll fuel curpos target deadline now k = Some (None, now + Z.of_nat m * tick).
Proof.
  induction m as [|m IH]; intros fuel deadline now k Hlow Hreach Hd Hfuel.
  - destruct fuel as [|fuel]; [lia|]. cbn [poll].
    rewrite Nat.add_0_r in Hreach. simpl Z.of_nat in *.
    destruct (Z.leb_spec deadline now); [lia|].
    destruct (Z.leb_spec 0 (Compare (curpos k) target)); [|lia].
    f_equal. f_equal. lia.
  - destruct fuel as [|fuel]; [lia|]. cbn [poll].
    assert (Ht : 0 < tick) by (rewrite tick_value; lia).
    destruct (Z.leb_spec deadline now); [nia|].
    specialize (Hlow 0%nat) as H0. rewrite Nat.add_0_r in H0.
    destruct (Z.leb_spec 0 (Compare (curpos k) target)) as [Hge|_];
      [specialize (H0 ltac:(lia)); lia|].
    replace (now + Z.of_nat (S m) * tick)
      with (now + tick + Z.of_nat m * tick) by lia.
    apply IH; try lia.
    + intros j Hj. replace (S k + j)%nat with (k + S j)%nat by lia.
      apply Hlow. lia.
    + replace (S k + m)%nat with (k + S m)%nat by lia. exact Hreach.
Qed.

(** The loop returns whatever the tracker does, once the fuel covers the
    ticks up to the deadline. *)
Lemma poll_total (fuel : nat) :
  forall (deadline now : Duration.t) (k : nat),
    deadline - now < Z.of_nat fuel * tick ->
    exists res, poll (S fuel) curpos target deadline now k = Some res.
Proof.
  induction fuel as [|fuel IH]; intros deadline now k Hd; cbn [poll].
  - destruct (Z.leb_spec deadline now); [eauto | simpl in Hd; lia].
  - destruct (Z.leb_spec deadline now); [eauto|].
    destruct (Z.leb_spec 0 (Compare (curpos k) target)); [eauto|].
    apply IH. lia.
Qed.

Lemma enough_covers (timeout : Z) :
  let t := if timeout <=? 0 then 60 else timeout in
  exists fuel,
    enough timeout = S fuel /\
    Duration.mul t Duration.Second - 0 < Z.of_nat fuel * tick.
Proof.
  intros t. unfold enough. fold t. eexists. split; [reflexivity|].
  rewrite tick_value.
  set (d := Duration.mul t Duration.Second).
  destruct (Z.le_gt_cases 0 d) as [Hd|Hd].
  - rewrite Z2Nat.id by (pose proof (Z.div_pos d 100000000 Hd); lia).
    pose proof (Z.mul_succ_div_gt d 100000000). lia.
  - lia.
Qed.

Lemma WaitUntilPos_total (timeout : Z) :
  exists res, WaitUntilPos curpos target timeout = Some res.
Proof.
  destruct (enough_covers timeout) as [fuel [He Hd]].
  unfold WaitUntilPos, WaitUntilPos_fuel. rewrite He.
  apply poll_total. exact Hd.
Qed.

End Polling.

Import Wait.

Lemma string_compare_refl (a : string) : String.compare a a = Eq.
Proof.
  pose proof (String.compare_antisym a a) as H.
  destruct (String.compare a a); [reflexivity | discriminate | discriminate].
Qed.

(** [Compare] orders positions by file name, then by offset. *)
Lemma Compare_reached (p o : Position) :
  0 <= Compare p o <->
  String.compare (Name p) (Name o) = Gt \/
  (Name p = Name o /\ Pos o <= Pos p).
Proof.
  unfold Compare.
  destruct (String.compare (Name p) (Name o)) eqn:Hc.
  - apply String.compare_eq_iff in Hc.
    destruct (Z.ltb_spec (Pos o) (Pos p)); [|destruct (Z.ltb_spec (Pos p) (Pos o))];
      split; intros; try lia; try (right; split; [assumption | lia]);
      destruct H1 as [H1|[_ H1]]; try discriminate; lia.
  - split; [lia|]. intros [H|[H _]]; [discriminate|].
    rewrite H, string_compare_refl in Hc. discriminate.
  - split; [tauto | lia].
Qed.

Lemma enough_in_range (timeout : Z) :
  0 < timeout <= 9223372036 ->
  enough timeout = S (S (Z.to_nat (10 * timeout))).
Proof.
  intros H. unfold enough.
  destruct (Z.leb_spec timeout 0); [lia|].
  rewrite (seconds_in_range timeout H).
  rewrite Z.div_mul by (rewrite tick_value; lia).
  rewrite Z2Nat.inj_add by lia. rewrite Nat2Z.id.
  change (Z.to_nat 1) with 1%nat. f_equal. lia.
Qed.

Section Waiting.

Variable curpos : nat -> Position.
Variable target : Position.
Variable timeout : Z.
Hypothesis Hrange : 0 < timeout <= 9223372036.

Lemma positive_timeout : (if timeout <=? 0 then 60 else timeout) = timeout.
Proof. destruct (Z.leb_spec timeout 0); [lia | reflexivity]. Qed.

(** The first look that finds the target reached, before the timer
    fires, ends the wait with nil. *)
Lemma WaitUntilPos_reached (m : nat) :
  Z.of_nat m < 10 * timeout ->
  (forall j, (j < m)%nat -> Compare (curpos j) target < 0) ->
  0 <= Compare (curpos m) target ->
  WaitUntilPos curpos target timeout = Some (None, Z.of_nat m * tick).
Proof.
  intros Hm Hlow Hreach.
  unfold WaitUntilPos, WaitUntilPos_fuel.
  rewrite positive_timeout, (enough_in_range timeout Hrange).
  rewrite (poll_reached curpos target m); try assumption.
  - reflexivity.
  - rewrite (seconds_in_range timeout Hrange), Z2Nat.id by lia.
    rewrite tick_value. lia.
  - lia.
Qed.

(** A tracker below the target at every look before the timer fires
    ends the wait with the error, when the timer fires. *)
Lemma WaitUntilPos_stuck :
  (forall j : nat, Z.of_nat j < 10 * timeout -> Compare (curpos j) target < 0) ->
  WaitUntilPos curpos target timeout =
  Some (Some (WaitPosition target), timeout * Duration.Second).
Proof.
  intros Hlow.
  unfold WaitUntilPos, WaitUntilPos_fuel.
  rewrite positive_timeout, (enough_in_range timeout Hrange).
  rewrite (seconds_in_range timeout Hrange).
  change (Z.of_nat (Z.to_nat (10 * timeout)) * tick)
    with (0 + Z.of_nat (Z.to_nat (10 * timeout)) * tick).
  rewrite poll_stuck.
  - rewrite Z2Nat.id by lia. rewrite tick_value.
    unfold Duration.Second. f_equal. f_equal. lia.
  - intros j Hj. apply Hlow. lia.
  - lia.
Qed.

End Waiting.

(** C8: with a positive timeout (whose nanoseconds fit in an int64),
    WaitUntilPos looks at the tracked position every 100ms; it returns nil at
    the first look, before the timer fires, at which the position compares
    greater than or equal to the target (by file name, then offset); if no
    look before the timer fires finds that, it returns the timeout error when
    the timer fires, [timeout] seconds after the call, and so it always
    returns.  With a timeout of one second and a tracker that stays below the
    target this is after ten sleeps, one second after the call. *)
Theorem WaitUntilPos_polls_until_timeout (curpos : nat -> Position)
    (target : Position) (timeout : Z) (Hrange : 0 < timeout <= 9223372036) :
  (forall m : nat,
     Z.of_nat m < 10 * timeout ->
     (forall j, (j < m)%nat -> Compare (curpos j) target < 0) ->
     0 <= Compare (curpos m) target ->
     WaitUntilPos curpos target timeout = Some (None, Z.of_nat m * tick)) /\
  ((forall j : nat, Z.of_nat j < 10 * timeout -> Compare (curpos j) target < 0) ->
   WaitUntilPos curpos target timeout =
   Some (Some (WaitPosition target), timeout * Duration.Second)) /\
  (exists res, WaitUntilPos curpos target timeout = Some res) /\
  tick = 100 * Duration.Millisecond /\
  (forall p o, 0 <= Compare p o <->
     String.compare (Name p) (Name o) = Gt \/ (Name p = Name o /\ Pos o <= Pos p)).
Proof.
  split; [|split; [|split; [|split]]].
  - intros m. apply WaitUntilPos_reached. exact Hrange.
  - apply WaitUntilPos_stuck. exact Hrange.
  - apply WaitUntilPos_total.
  - reflexivity.
  - apply Compare_reached.
Qed.

Lemma WaitUntilPos_polls_until_timeout_witness :
  WaitUntilPos (fun _ => mkPosition "fileA" 100) (mkPosition "fileB" 500) 1
  = Some (Some (WaitPosition (mkPosition "fileB" 500)), 1 * Duration.Second).
Proof.
  apply (WaitUntilPos_polls_until_timeout
           (fun _ => mkPosition "fileA" 100) (mkPosition "fileB" 500) 1).
  - lia.
  - intros j _. reflexivity.
Defined.

(** C9: a timeout that is zero or negative is replaced by sixty seconds:
    the call is the call with a timeout of 60; it returns nil at once if the
    target is already reached, and against a tracker that stays below the
    target it returns the timeout error sixty seconds after the call. *)
Theorem WaitUntilPos_default_timeout (curpos : nat -> Position)
    (target : Position) (timeout : Z) (Hle : timeout <= 0) :
  WaitUntilPos curpos target timeout = WaitUntilPos curpos target 60 /\
  (exists res, WaitUntilPos curpos target timeout = Some res) /\
  (0 <= Compare (curpos 0%nat) target ->
   WaitUntilPos curpos target timeout = Some (None, 0)) /\
  ((forall j : nat, Compare (curpos j) target < 0) ->
   WaitUntilPos curpos target timeout =
   Some (Some (WaitPosition target), 60 * Duration.Second)).
Proof.
  assert (He : WaitUntilPos curpos target timeout = WaitUntilPos curpos target 60).
  { unfold WaitUntilPos, WaitUntilPos_fuel, enough.
    destruct (Z.leb_spec timeout 0); [reflexivity | lia]. }
  assert (H60 : 0 < 60 <= 9223372036) by lia.
  split; [exact He|].
  split; [apply WaitUntilPos_total|].
  split.
  - intros H0. rewrite He.
    apply (WaitUntilPos_reached curpos target 60 H60 0%nat);
      [lia | intros j Hj; lia | exact H0].
  - intros Hlow. rewrite He. apply (WaitUntilPos_stuck curpos target 60 H60).
    intros j _. apply Hlow.
Qed.

Lemma WaitUntilPos_default_timeout_witness :
  WaitUntilPos (fun _ => mkPosition "fileA" 100) (mkPosition "fileB" 500) (-5)
  = WaitUntilPos (fun _ => mkPosition "fileA" 100) (mkPosition "fileB" 500) 60 /\
  WaitUntilPos (fun _ => mkPosition "fileA" 100) (mkPosition "fileB" 500) 0
  = Some (Some (WaitPosition (mkPosition "fileB" 500)), 60 * Duration.Second).
Proof.
  assert (H5 : -5 <= 0) by lia.
  assert (H0 : 0 <= 0) by lia.
  split.
  - exact (proj1 (WaitUntilPos_default_timeout
                    (fun _ => mkPosition "fileA" 100) (mkPosition "fileB" 500)
                    (-5) H5)).
  - apply (proj2 (proj2 (proj2 (WaitUntilPos_default_timeout
                    (fun _ => mkPosition "fileA" 100) (mkPosition "fileB" 500)
                    0 H0)))).
    intros j. reflexivity.
Defined.

(** ** The shared list of skipped schemas *)

(** Calls of [isSkipedSchema] in a row, each by some [Canal] of the
    process: they all work on the one package-level list. *)
Fixpoint isSkipedSchema_calls (l : list (Canal * string)) : M unit :=
  match l with
  | [] => ret tt
  | (c, schema) :: l' => isSkipedSchema c schema ;;; isSkipedSchema_calls l'
  end.

Lemma isSkipedSchema_calls_cons (c : Canal) (schema : string)
    (l : list (Canal * string)) (s : list string) :
  skiped (isSkipedSchema_calls ((c, schema) :: l) s) =
  skiped (isSkipedSchema_calls l (skiped (isSkipedSchema c schema s))).
Proof.
  cbn [isSkipedSchema_calls]. unfold bind, skiped.
  destruct (isSkipedSchema c schema s) as [[b s1] t1]. simpl.
  destruct (isSkipedSchema_calls l s1) as [[u s2] t2]. reflexivity.
Qed.

Lemma isSkipedSchema_calls_app (l1 l2 : list (Canal * string)) :
  forall s,
    skiped (isSkipedSchema_calls (l1 ++ l2) s) =
    skiped (isSkipedSchema_calls l2 (skiped (isSkipedSchema_calls l1 s))).
Proof.
  induction l1 as [|[c schema] l1 IH]; intros s.
  - reflexivity.
  - rewrite <- app_comm_cons, !isSkipedSchema_calls_cons. apply IH.
Qed.

Lemma isSkipedSchema_calls_extends (l : list (Canal * string)) :
  forall s, exists ext, skiped (isSkipedSchema_calls l s) = s ++ ext.
Proof.
  induction l as [|[c schema] l IH]; intros s.
  - exists []. simpl. now rewrite app_nil_r.
  - rewrite isSkipedSchema_calls_cons.
    destruct (isSkipedSchema_extends c schema s) as [e1 H1].
    destruct (IH (skiped (isSkipedSchema c schema s))) as [e2 H2].
    exists (e1 ++ e2). rewrite H2, H1, app_assoc. reflexivity.
Qed.

Lemma isSkipedSchema_calls_NoDup (l : list (Canal * string)) :
  forall s, NoDup s -> NoDup (skiped (isSkipedSchema_calls l s)).
Proof.
  induction l as [|[c schema] l IH]; intros s Hs.
  - exact Hs.
  - rewrite isSkipedSchema_calls_cons. apply IH, isSkipedSchema_NoDup, Hs.
Qed.

(** The loop changes the list through [isSkipedSchema] only, so it keeps
    both properties. *)
Lemma run_skiped (c : Canal) (answers : list ((BinlogEvent + error) * Responses)) :
  forall (l : Locals) (s : list string),
    (NoDup s -> NoDup (skiped (run c answers l s))) /\
    exists ext, skiped (run c answers l s) = s ++ ext.
Proof.
  induction answers as [|[g r] rest IH]; intros l s.
  - split; [auto|]. exists []. simpl. now rewrite app_nil_r.
  - rewrite run_cons.
    assert (Hi : (NoDup s -> NoDup (skiped (iteration c g r l s))) /\
                 exists ext, skiped (iteration c g r l s) = s ++ ext).
    { rewrite iteration_skiped.
      destruct g as [[h [e|e| |e|k]]|err];
        try (split; [auto | exists []; now rewrite app_nil_r]).
      split; [apply isSkipedSchema_NoDup | apply isSkipedSchema_extends]. }
    destruct Hi as [Hnd [e1 He1]].
    destruct (value (iteration c g r l s)) as [l'|e].
    + cbv zeta. unfold skiped at 1 3. simpl fst. simpl snd.
      destruct (IH l' (skiped (iteration c g r l s))) as [Hnd2 [e2 He2]].
      split; [auto|].
      exists (e1 ++ e2). rewrite He2, He1, app_assoc. reflexivity.
    + unfold skiped at 1 3. simpl fst. simpl snd. split; [auto | eauto].
Qed.

(** C10: the list of skipped schemas is one list for the whole process,
    whichever [Canal] calls the filter: from the empty list of the start of the
    process, after any calls the list has no duplicate, and what further calls
    - of the filter or of a whole sync loop - leave is the list with entries
    added at its end, so no entry is ever removed; a schema that one [Canal]
    has added is found by another, which neither adds nor logs it again. *)
Theorem skipedSchemaList_append_once (before after : list (Canal * string))
    (c : Canal) (answers : list ((BinlogEvent + error) * Responses)) (l : Locals) :
  let s := skiped (isSkipedSchema_calls before []) in
  NoDup s /\
  (exists ext, skiped (isSkipedSchema_calls (before ++ after) []) = s ++ ext) /\
  NoDup (skiped (run c answers l s)) /\
  (exists ext, skiped (run c answers l s) = s ++ ext) /\
  (forall c1 c2 schema,
     restricted c1 schema = true -> restricted c2 schema = true ->
     isSkipedSchema c2 schema (skiped (isSkipedSchema c1 schema s)) =
     (true, skiped (isSkipedSchema c1 schema s), [])).
Proof.
  intros s.
  assert (Hs : NoDup s) by (apply isSkipedSchema_calls_NoDup; constructor).
  split; [exact Hs|].
  split; [rewrite isSkipedSchema_calls_app; apply isSkipedSchema_calls_extends|].
  split; [apply run_skiped; exact Hs|].
  split; [apply run_skiped|].
  intros c1 c2 schema H1 H2.
  rewrite (isSkipedSchema_eq c2), H2.
  assert (Hin : In schema (skiped (isSkipedSchema c1 schema s))).
  { rewrite isSkipedSchema_eq, H1.
    destruct (range_found schema s) eqn:Hf; unfold skiped; simpl.
    - now apply range_found_In.
    - rewrite in_app_iff. simpl. tauto. }
  rewrite (proj2 (range_found_In _ _) Hin). reflexivity.
Qed.

Definition shop_canal : Canal := mkCanal "shop" "mysql-bin.000007" 4.

Lemma skipedSchemaList_append_once_witness :
  isSkipedSchema shop_canal "other" (skiped (isSkipedSchema app_canal "other" []))
  = (true, skiped (isSkipedSchema app_canal "other" []), []).
Proof.
  apply (proj2 (proj2 (proj2 (proj2
           (skipedSchemaList_append_once [] [] app_canal [] at_start))))
           app_canal shop_canal "other"); reflexivity.
Defined.

(** * Further properties *)

(** ** What the pattern can find *)

Lemma either_branch (R : Type) (g : bool) (more stop : option R) (x : R) :
  (if g
   then match more with Some y => Some y | None => stop end
   else match stop with Some y => Some y | None => more end) = Some x ->
  more = Some x \/ stop = Some x.
Proof. destruct g, more, stop; intros H; auto; discriminate. Qed.

(** A repetition that succeeds has consumed a run of accepted characters,
    at least [lo] of them, and its continuation has succeeded on the rest. *)
Lemma rep_reaches (R : Type) (g : bool) (p : cls)
    (k : list ascii -> nat -> option R) (x : R) (s : list ascii) :
  forall (lo : nat) (hi : option nat) (pos : nat),
    rep g p lo hi s pos k = Some x ->
    exists a s',
      s = a ++ s' /\ (lo <= List.length a)%nat /\
      forallb (accepts p) a = true /\
      k s' (pos + List.length a)%nat = Some x.
Proof.
  induction s as [|c s IH]; intros lo hi pos H;
    rewrite rep_eq in H; cbv zeta in H;
    apply either_branch in H; destruct H as [H|H].
  - destruct hi as [[|?]|]; discriminate.
  - destruct lo; [|discriminate].
    exists [], []. cbn. rewrite Nat.add_0_r. auto.
  - assert (Hmore : accepts p c = true /\
                    rep g p (Nat.pred lo) (option_map Nat.pred hi) s (S pos) k
                    = Some x).
    { destruct hi as [[|?]|]; try discriminate;
        destruct (accepts p c); try discriminate; auto. }
    destruct Hmore as [Hc Hrep].
    destruct (IH _ _ _ Hrep) as (a & s' & -> & Hlo & Ha & Hk).
    exists (c :: a), s'. cbn [app List.length forallb].
    rewrite Hc, Ha, Nat.add_succ_r. repeat split; [lia | exact Hk].
  - destruct lo; [|discriminate].
    exists [], (c :: s). cbn. rewrite Nat.add_0_r. auto.
Qed.

(** A match that succeeds has consumed a prefix of the text and its
    continuation has succeeded on the rest. *)
Lemma run_reaches (R : Type) (r : re) :
  forall (s : list ascii) (pos : nat) (caps : captures)
         (k : list ascii -> nat -> captures -> option R) (x : R),
    Regexp.run r s pos caps k = Some x ->
    exists a s' caps',
      s = a ++ s' /\ k s' (pos + List.length a)%nat caps' = Some x.
Proof.
  induction r as [|p|p lo hi g|n r IH|r1 IH1 r2 IH2];
    intros s pos caps k x H; cbn [Regexp.run] in H.
  - destruct pos; [|discriminate].
    exists [], s, caps. auto.
  - destruct s as [|c s]; [discriminate|].
    destruct (accepts p c); [|discriminate].
    exists [c], s, caps. cbn. rewrite Nat.add_1_r. auto.
  - apply rep_reaches in H. destruct H as (a & s' & -> & _ & _ & Hk).
    exists a, s', caps. auto.
  - apply IH in H. destruct H as (a & s' & caps' & -> & Hk). eauto.
  - apply IH1 in H. destruct H as (a & s' & caps' & -> & Hk).
    apply IH2 in Hk. destruct Hk as (b & s'' & caps'' & -> & Hk).
    exists (a ++ b), s'', caps''. rewrite <- app_assoc, length_app, Nat.add_assoc.
    auto.
Qed.

(** A pattern without a group leaves the submatches as they are. *)
Fixpoint no_group (r : re) : bool :=
  match r with
  | Cap _ _ => false
  | Cat r1 r2 => no_group r1 && no_group r2
  | Bol | One _ | Rep _ _ _ _ => true
  end.

Lemma run_no_group (R : Type) (r : re) :
  forall (s : list ascii) (pos : nat) (caps : captures)
         (k : list ascii -> nat -> captures -> option R) (x : R),
    no_group r = true ->
    Regexp.run r s pos caps k = Some x ->
    exists s' pos', k s' pos' caps = Some x.
Proof.
  induction r as [|p|p lo hi g|n r IH|r1 IH1 r2 IH2];
    intros s pos caps k x Hn H; cbn [Regexp.run] in H.
  - destruct pos; [eauto | discriminate].
  - destruct s as [|c s]; [discriminate|].
    destruct (accepts p c); [eauto | discriminate].
  - apply rep_reaches in H. destruct H as (a & s' & _ & _ & _ & Hk). eauto.
  - discriminate.
  - cbn [no_group] in Hn. apply andb_prop in Hn. destruct Hn as [H1 H2].
    apply (IH1 _ _ _ _ _ H1) in H. destruct H as (s' & pos' & Hk).
    apply (IH2 _ _ _ _ _ H2) in Hk. exact Hk.
Qed.

(** The second group: a run of at least one character that is neither a
    backtick nor a dot. *)
Lemma run_group_reaches (R : Type) (n : nat) (p : cls) (lo : nat)
    (hi : option nat) (g : bool) (s : list ascii) (pos : nat) (caps : captures)
    (k : list ascii -> nat -> captures -> option R) (x : R) :
  Regexp.run (Cap n (Rep p lo hi g)) s pos caps k = Some x ->
  exists a s',
    s = a ++ s' /\ (lo <= List.length a)%nat /\ forallb (accepts p) a = true /\
    k s' (pos + List.length a)%nat ((n, a) :: caps) = Some x.
Proof.
  cbn [Regexp.run]. intros H. apply rep_reaches in H.
  destruct H as (a & s' & -> & Hlo & Ha & Hk).
  exists a, s'. repeat split; try assumption.
  replace (pos + List.length a - pos)%nat with (List.length a) in Hk by lia.
  rewrite firstn_prefix in Hk. exact Hk.
Qed.

(** The keyword: a match goes through its twelve characters. *)
Lemma run_ones_reaches (R : Type) (ps : list cls) (r : re) :
  forall (s : list ascii) (pos : nat) (caps : captures)
         (k : list ascii -> nat -> captures -> option R) (x : R),
    Regexp.run (ones ps r) s pos caps k = Some x ->
    exists kw s',
      s = kw ++ s' /\ spelled ps kw = true /\
      Regexp.run r s' (pos + List.length kw)%nat caps k = Some x.
Proof.
  induction ps as [|p ps IH]; intros s pos caps k x H; cbn [ones] in H.
  - exists [], s. cbn. rewrite Nat.add_0_r. auto.
  - cbn [Regexp.run] in H. destruct s as [|c s]; [discriminate|].
    destruct (accepts p c) eqn:Hc; [|discriminate].
    apply IH in H. destruct H as (kw & s' & -> & Hkw & Hr).
    exists (c :: kw), s'. cbn [app spelled List.length].
    rewrite Hc, Hkw, Nat.add_succ_r. auto.
Qed.

Lemma run_Cat_reaches (R : Type) (r1 r2 : re) (s : list ascii) (pos : nat)
    (caps : captures) (k : list ascii -> nat -> captures -> option R) (x : R) :
  Regexp.run (Cat r1 r2) s pos caps k = Some x ->
  exists a s' pos' caps',
    s = a ++ s' /\ Regexp.run r2 s' pos' caps' k = Some x.
Proof.
  cbn [Regexp.run]. intros H. apply run_reaches in H.
  destruct H as (a & s' & caps' & -> & Hk).
  exists a, s', (pos + List.length a)%nat, caps'. split; [reflexivity | exact Hk].
Qed.

(** What follows the table name in a match: one white space, after a
    backtick or not. *)
Lemma after_table_reaches (R : Type) (s : list ascii) (pos : nat)
    (caps : captures) (k : list ascii -> nat -> captures -> option R) (x : R) :
  Regexp.run after_table s pos caps k = Some x ->
  exists c s',
    accepts Space c = true /\ (s = c :: s' \/ s = "`"%char :: c :: s').
Proof.
  unfold after_table. cbn [cat]. intros H.
  destruct s as [|c s]; [cbn in H; discriminate|].
  cbn [Regexp.run] in H.
  destruct (accepts (Lit "`") c) eqn:Hq.
  - apply Ascii.eqb_eq in Hq. subst c.
    rewrite run_opt_take in H by reflexivity.
    destruct s as [|c' s'].
    + cbn in H. discriminate.
    + destruct (accepts Space c') eqn:Hs.
      * exists c', s'. auto.
      * cbn in H. discriminate.
  - rewrite run_opt_skip in H by exact Hq.
    cbv beta in H. cbn [Regexp.run] in H.
    destruct (accepts Space c) eqn:Hs; [|discriminate].
    exists c, s. auto.
Qed.

Lemma after_table_no_group : no_group after_table = true.
Proof. reflexivity. Qed.

(** The shape of every match of the pattern at the start of a text. *)
Lemma expAlterTable_match_inv (text : list ascii) (x : list (list ascii)) :
  match_at expAlterTable 2 text 0 = Some x ->
  exists kw before table after whole g1 c rest,
    text = kw ++ before ++ table ++ after /\
    spelled keyword kw = true /\
    x = [whole; g1; table] /\
    table <> [] /\
    forallb (accepts table_class) table = true /\
    (exists m, whole = firstn m text) /\
    accepts Space c = true /\
    (after = c :: rest \/ after = "`"%char :: c :: rest).
Proof.
  unfold match_at. fold (found text 0).
  rewrite expAlterTable_parts, run_Cat. cbn [Regexp.run]. intros H.
  apply run_ones_reaches in H. destruct H as (kw & s1 & -> & Hkw & H).
  unfold names_part in H.
  apply run_Cat_reaches in H. destruct H as (a1 & s2 & p2 & c2 & -> & H).
  apply run_Cat_reaches in H. destruct H as (a2 & s3 & p3 & c3 & -> & H).
  apply run_Cat_reaches in H. destruct H as (a3 & s4 & p4 & c4 & -> & H).
  unfold after_schema in H.
  apply run_Cat_reaches in H. destruct H as (a4 & s5 & p5 & c5 & -> & H).
  apply run_Cat_reaches in H. destruct H as (a5 & s6 & p6 & c6 & -> & H).
  apply run_Cat_reaches in H. destruct H as (a6 & s7 & p7 & c7 & -> & H).
  unfold table_part in H. rewrite run_Cat in H. unfold lazy_plus in H.
  apply run_group_reaches in H.
  destruct H as (table & after & -> & Hlen & Hcls & H).
  pose proof (after_table_reaches _ _ _ _ _ _ H) as (c & rest & Hc & Hafter).
  apply (run_no_group _ _ _ _ _ _ _ after_table_no_group) in H.
  destruct H as (s' & pos' & H). unfold found in H.
  injection H as <-.
  exists kw, (a1 ++ a2 ++ a3 ++ a4 ++ a5 ++ a6), table, after.
  exists (firstn (pos' - 0) (kw ++ a1 ++ a2 ++ a3 ++ a4 ++ a5 ++ a6 ++ table ++ after)).
  exists (lookup 1 ((2%nat, table) :: c7)), c, rest.
  split; [rewrite <- !app_assoc; reflexivity|].
  split; [exact Hkw|].
  split; [reflexivity|].
  split; [destruct table; [cbn in Hlen; lia | discriminate]|].
  split; [exact Hcls|].
  split; [eexists; reflexivity|].
  split; assumption.
Qed.

Lemma search_expAlterTable (s : list ascii) :
  search expAlterTable 2 s 0 = match_at expAlterTable 2 s 0.
Proof.
  rewrite search_eq. destruct (match_at expAlterTable 2 s 0); [reflexivity|].
  destruct s; [reflexivity|].
  rewrite expAlterTable_parts. apply search_Bol_later.
Qed.

Lemma string_of_list_ascii_app (a b : list ascii) :
  string_of_list_ascii (a ++ b) =
  (string_of_list_ascii a ++ string_of_list_ascii b)%string.
Proof. induction a as [|c a IH]; cbn; [reflexivity | now rewrite IH]. Qed.

Lemma FindSubmatch_match_at (text : string) (mb : list string) :
  expAlterTable_FindSubmatch text = Some mb ->
  exists x,
    match_at expAlterTable 2 (list_ascii_of_string text) 0 = Some x /\
    mb = map string_of_list_ascii x.
Proof.
  unfold expAlterTable_FindSubmatch, FindSubmatch.
  rewrite search_expAlterTable.
  destruct (match_at expAlterTable 2 (list_ascii_of_string text) 0) as [x|];
    [|discriminate].
  intros [= <-]. eauto.
Qed.

Lemma spelled_length (ps : list cls) :
  forall kw, spelled ps kw = true -> List.length kw = List.length ps.
Proof.
  induction ps as [|p ps IH]; intros [|c kw] H; try discriminate.
  - reflexivity.
  - cbn [spelled] in H. apply andb_prop in H. cbn. f_equal. apply IH, H.
Qed.

Lemma app_same_length (a : list ascii) :
  forall a' b b',
    a ++ b = a' ++ b' -> List.length a = List.length a' -> a = a' /\ b = b'.
Proof.
  induction a as [|c a IH]; intros [|c' a'] b b' H Hlen; try discriminate.
  - auto.
  - cbn in H. injection H as -> H. injection Hlen as Hlen.
    destruct (IH _ _ _ H Hlen) as [-> ->]. auto.
Qed.

Lemma string_length_of_list (l : list ascii) :
  String.length (string_of_list_ascii l) = List.length l.
Proof. induction l; cbn; congruence. Qed.

(** X1: the pattern finds nothing but statements that begin with the words
    ALTER and TABLE, in any case, each followed by one white space. *)
Theorem expAlterTable_only_alter_table (text : string) (mb : list string) :
  expAlterTable_FindSubmatch text = Some mb ->
  exists kw body,
    text = (kw ++ body)%string /\ is_alter_table kw = true /\
    String.length kw = 12%nat.
Proof.
  intros H. apply FindSubmatch_match_at in H. destruct H as (x & H & _).
  apply expAlterTable_match_inv in H.
  destruct H as (kw & before & table & after & whole & g1 & c & rest
                 & Htext & Hkw & _).
  exists (string_of_list_ascii kw), (string_of_list_ascii (before ++ table ++ after)).
  split; [|split].
  - rewrite <- string_of_list_ascii_app, <- Htext.
    symmetry. apply string_of_list_ascii_of_string.
  - unfold is_alter_table. rewrite list_ascii_of_string_of_list_ascii. exact Hkw.
  - rewrite string_length_of_list, (spelled_length _ _ Hkw). reflexivity.
Qed.

Lemma expAlterTable_only_alter_table_witness :
  exists kw body,
    "ALTER TABLE orders RENAME COLUMN ..." = (kw ++ body)%string /\
    is_alter_table kw = true /\ String.length kw = 12%nat.
Proof.
  exact (expAlterTable_only_alter_table _ _ find_unqualified).
Defined.

(** X2: what the pattern returns has three elements: the whole match, which
    starts the statement, the schema and the table.  The table is never empty,
    holds no backtick and no dot, stands in the statement after the keyword,
    and is followed there, after at most one backtick, by a white space. *)
Theorem expAlterTable_table_found (text : string) (mb : list string) :
  expAlterTable_FindSubmatch text = Some mb ->
  exists whole schema table,
    mb = [whole; schema; table] /\
    table <> "" /\
    ~ In "`"%char (list_ascii_of_string table) /\
    ~ In "."%char (list_ascii_of_string table) /\
    (exists tail, text = (whole ++ tail)%string) /\
    (exists before after c rest,
       text = (before ++ table ++ after)%string /\
       (12 <= String.length before)%nat /\
       accepts Space c = true /\
       (after = String c rest \/ after = String "`" (String c rest))).
Proof.
  intros H. apply FindSubmatch_match_at in H. destruct H as (x & H & ->).
  apply expAlterTable_match_inv in H.
  destruct H as (kw & before & table & after & whole & g1 & c & rest
                 & Htext & Hkw & -> & Hne & Hcls & [m ->] & Hc & Hafter).
  exists (string_of_list_ascii (firstn m (list_ascii_of_string text))),
    (string_of_list_ascii g1), (string_of_list_ascii table).
  assert (Hnot : forall q, In q ["`"; "."]%char -> ~ In q table).
  { intros q Hq Hin. rewrite forallb_forall in Hcls. specialize (Hcls q Hin).
    unfold table_class, accepts in Hcls. apply negb_true_iff in Hcls.
    assert (Hex : existsb (eqa q) ["`"; "."]%char = true)
      by (apply existsb_exists; exists q; split;
          [exact Hq | apply Ascii.eqb_refl]).
    congruence. }
  split; [reflexivity|].
  split; [destruct table; [congruence | discriminate]|].
  rewrite list_ascii_of_string_of_list_ascii.
  split; [apply Hnot; cbn; tauto|].
  split; [apply Hnot; cbn; tauto|].
  split.
  - exists (string_of_list_ascii (skipn m (list_ascii_of_string text))).
    rewrite <- string_of_list_ascii_app, firstn_skipn.
    symmetry. apply string_of_list_ascii_of_string.
  - exists (string_of_list_ascii (kw ++ before)), (string_of_list_ascii after),
      c, (string_of_list_ascii rest).
    split; [|split; [|split]].
    + rewrite <- !string_of_list_ascii_app, <- app_assoc, <- Htext.
      symmetry. apply string_of_list_ascii_of_string.
    + rewrite string_length_of_list, length_app, (spelled_length _ _ Hkw).
      cbn. lia.
    + exact Hc.
    + destruct Hafter as [->| ->]; [left | right]; reflexivity.
Qed.

Lemma expAlterTable_table_found_witness :
  exists whole schema table,
    ["ALTER TABLE `shop`.`orders` ADD COLUMN x INT"; "shop"; "orders"]
    = [whole; schema; table] /\ table <> "".
Proof.
  destruct (expAlterTable_table_found _ _ find_quoted)
    as (whole & schema & table & H & Hne & _).
  exists whole, schema, table. split; assumption.
Defined.

(** X3: a statement in which no white space follows the keyword - one that
    ends with the table name, say - is not found. *)
Theorem expAlterTable_needs_space (kw body : string) :
  is_alter_table kw = true ->
  (forall c, In c (list_ascii_of_string body) -> accepts Space c = false) ->
  expAlterTable_FindSubmatch (kw ++ body) = None.
Proof.
  intros Hkw Hbody.
  destruct (expAlterTable_FindSubmatch (kw ++ body)) as [mb|] eqn:H;
    [exfalso | reflexivity].
  apply FindSubmatch_match_at in H. destruct H as (x & H & _).
  apply expAlterTable_match_inv in H.
  destruct H as (kw' & before & table & after & whole & g1 & c & rest
                 & Htext & Hkw' & _ & _ & _ & _ & Hc & Hafter).
  rewrite list_ascii_of_string_app in Htext.
  apply app_same_length in Htext.
  - destruct Htext as [_ Hb].
    assert (Hin : In c (list_ascii_of_string body)).
    { rewrite Hb, !in_app_iff. right. right.
      destruct Hafter as [->| ->]; cbn; tauto. }
    rewrite (Hbody c Hin) in Hc. discriminate.
  - unfold is_alter_table in Hkw.
    rewrite (spelled_length _ _ Hkw), (spelled_length _ _ Hkw'). reflexivity.
Qed.

Lemma expAlterTable_needs_space_witness :
  expAlterTable_FindSubmatch "ALTER TABLE `shop`.`orders`" = None.
Proof.
  apply (expAlterTable_needs_space "ALTER TABLE " "`shop`.`orders`").
  - reflexivity.
  - cbn. intros c H.
    repeat (destruct H as [<-|H]; [reflexivity|]). destruct H.
Defined.

(** ** The table cache *)

Lemma FindSubmatch_table_name (text : string) (mb : list string) :
  expAlterTable_FindSubmatch text = Some mb ->
  exists whole schema table,
    mb = [whole; schema; table] /\ table <> "" /\
    ~ In "`"%char (list_ascii_of_string table) /\
    ~ In "."%char (list_ascii_of_string table).
Proof.
  intros H. apply FindSubmatch_match_at in H. destruct H as (x & H & ->).
  apply expAlterTable_match_inv in H.
  destruct H as (kw & before & table & after & whole & g1 & c & rest
                 & _ & _ & -> & Hne & Hcls & _).
  exists (string_of_list_ascii whole), (string_of_list_ascii g1),
    (string_of_list_ascii table).
  assert (Hnot : forall q, In q ["`"; "."]%char -> ~ In q table).
  { intros q Hq Hin. rewrite forallb_forall in Hcls. specialize (Hcls q Hin).
    unfold table_class, accepts in Hcls. apply negb_true_iff in Hcls.
    assert (Hex : existsb (eqa q) ["`"; "."]%char = true)
      by (apply existsb_exists; exists q; split;
          [exact Hq | apply Ascii.eqb_refl]).
    congruence. }
  split; [reflexivity|].
  split; [destruct table; [congruence | discriminate]|].
  rewrite list_ascii_of_string_of_list_ascii.
  split; apply Hnot; cbn; tauto.
Qed.

Definition is_clear (cl : Call) : bool :=
  match cl with Call_ClearTableCache _ _ => true | _ => false end.

(** The calls of one iteration that clear the table cache. *)
Lemma iteration_clear_calls (c : Canal) (g : BinlogEvent + error)
    (r : Responses) (l : Locals) (s : list string) :
  filter is_clear (calls (iteration c g r l s)) =
  match g with
  | inl (mkEvent _ (EQuery e)) =>
      match expAlterTable_FindSubmatch (Query e) with
      | Some mb =>
          [Call_ClearTableCache (fst (altered e mb)) (snd (altered e mb))]
      | None => []
      end
  | _ => []
  end.
Proof.
  destruct g as [[h ev]|err].
  - rewrite iteration_event_eq. cbv beta iota zeta delta [Event_ Header].
    destruct ev as [e|e| |e|k];
      try (destruct (expAlterTable_FindSubmatch (Query e)));
      try rewrite save_step_eq;
      try (rewrite handleRowsEvent_eq, isSkipedSchema_eq;
           destruct (restricted c (Table_Schema e));
           [destruct (range_found (Table_Schema e) s)
           |destruct (on_GetTable r);
            [destruct (action_of _);
             [destruct (on_travelRowsEventHandler r)|]|]]);
      try (destruct (on_master_Save r) as [[|] [?|]];
           destruct (on_getMasterInfoHandler r) as [[?|]|]);
      reflexivity.
  - rewrite iteration_error_eq. reflexivity.
Qed.

(** The calls of a run are those of its first iteration, then those of
    the rest of the run, if the loop goes on. *)
Lemma run_calls_cons (c : Canal) (g : BinlogEvent + error) (r : Responses)
    (rest : list ((BinlogEvent + error) * Responses)) (l : Locals)
    (s : list string) (cl : Call) :
  In cl (calls (run c ((g, r) :: rest) l s)) ->
  In cl (calls (iteration c g r l s)) \/
  exists l' s', In cl (calls (run c rest l' s')).
Proof.
  rewrite run_cons.
  destruct (value (iteration c g r l s)) as [l'|e]; [|auto].
  cbv zeta. unfold calls at 1. simpl snd. rewrite in_app_iff.
  intros [H|H]; eauto.
Qed.

(** X4: the table cache is cleared only for a Query event that the pattern
    finds, for the table found, which is not empty and holds no backtick and
    no dot, and for the schema found or, when that is empty, the schema of the
    event. *)
Theorem table_cache_cleared_for_found_tables (c : Canal)
    (answers : list ((BinlogEvent + error) * Responses)) :
  forall (l : Locals) (s : list string) (schema table : string),
    In (Call_ClearTableCache schema table) (calls (run c answers l s)) ->
    exists ev r e whole found_schema,
      In (inl ev, r) answers /\ Event_ ev = EQuery e /\
      expAlterTable_FindSubmatch (Query e) = Some [whole; found_schema; table] /\
      table <> "" /\
      ~ In "`"%char (list_ascii_of_string table) /\
      ~ In "."%char (list_ascii_of_string table) /\
      schema = (if (String.length found_schema =? 0)%nat
                then Schema e else found_schema).
Proof.
  induction answers as [|[g r] rest IH]; intros l s schema table Hin.
  - destruct Hin.
  - apply run_calls_cons in Hin. destruct Hin as [Hin|(l' & s' & Hin)].
    + assert (Hf : In (Call_ClearTableCache schema table)
                      (filter is_clear (calls (iteration c g r l s))))
        by (apply filter_In; split; [exact Hin | reflexivity]).
      rewrite iteration_clear_calls in Hf.
      destruct g as [[h [e|e| |e|k]]|err]; try destruct Hf.
      destruct (expAlterTable_FindSubmatch (Query e)) as [mb|] eqn:Hmb;
        [|destruct Hf].
      destruct Hf as [Hf|[]]. injection Hf as <- <-.
      destruct (FindSubmatch_table_name _ _ Hmb)
        as (whole & fs & tb & -> & Hne & Hq & Hd).
      exists (mkEvent h (EQuery e)), r, e, whole, fs.
      split; [left; reflexivity|]. repeat split; assumption.
    + destruct (IH _ _ _ _ Hin) as (ev & r0 & e & whole & fs & Ha & Hrest).
      exists ev, r0, e, whole, fs. split; [right; exact Ha | exact Hrest].
Qed.

Lemma table_cache_cleared_for_found_tables_witness :
  exists ev r e whole found_schema,
    In (inl ev : BinlogEvent + error, r)
       [(inl (query_event 900 "shop" "ALTER TABLE orders RENAME COLUMN ..."),
         quiet)] /\
    Event_ ev = EQuery e /\
    expAlterTable_FindSubmatch (Query e) = Some [whole; found_schema; "orders"] /\
    "orders" <> "" /\
    ~ In "`"%char (list_ascii_of_string "orders") /\
    ~ In "."%char (list_ascii_of_string "orders") /\
    "shop" = (if (String.length found_schema =? 0)%nat
              then Schema e else found_schema).
Proof.
  apply (table_cache_cleared_for_found_tables app_canal
           [(inl (query_event 900 "shop" "ALTER TABLE orders RENAME COLUMN ..."),
             quiet)] at_start [] "shop" "orders").
  vm_compute. tauto.
Defined.

(** ** The position of the loop *)

(** The position after one answer of the syncer: a Rotate event names the
    next file and the offset in it, every other event moves the offset to the
    one of its header, an error leaves the position as it is. *)
Definition next_pos (g : BinlogEvent + error) (p : Position) : Position :=
  match g with
  | inr _ => p
  | inl ev =>
      match Event_ ev with
      | ERotate e => mkPosition (NextLogName e) (uint32 (Position_ e))
      | _ => mkPosition (Name p) (LogPos (Header ev))
      end
  end.

Fixpoint pos_after (gs : list (BinlogEvent + error)) (p : Position) : Position :=
  match gs with
  | [] => p
  | g :: gs' => pos_after gs' (next_pos g p)
  end.

Lemma pos_eta (p : Position) : mkPosition (Name p) (Pos p) = p.
Proof. destruct p. reflexivity. Qed.

Lemma iteration_pos (c : Canal) (g : BinlogEvent + error) (r : Responses)
    (l l' : Locals) (s : list string) :
  value (iteration c g r l s) = Continue l' -> pos l' = next_pos g (pos l).
Proof.
  destruct g as [ev|err].
  - rewrite iteration_event_eq. unfold next_pos.
    destruct (Event_ ev) as [e|e| |e|k]; cbv zeta;
      try (destruct (expAlterTable_FindSubmatch (Query e)));
      try rewrite save_step_eq;
      try (destruct (value (handleRowsEvent c r (Header ev) e s)));
      try (destruct (on_master_Save r) as [[|] [?|]];
           destruct (on_getMasterInfoHandler r) as [[?|]|]);
      cbn; intros H; try discriminate; injection H as <-; reflexivity.
  - rewrite iteration_error_eq. cbn.
    destruct (is_DeadlineExceeded err); intros H; [|discriminate].
    injection H as <-. reflexivity.
Qed.

Lemma save_point_pos (l : Locals) (ev : BinlogEvent) (p : Position)
    (forced : bool) :
  save_point l ev = Some (p, forced) -> p = next_pos (inl ev) (pos l).
Proof.
  unfold save_point, next_pos.
  destruct (Event_ ev) as [e|e| |e|k]; try discriminate;
    try (destruct (expAlterTable_FindSubmatch (Query e)); [|discriminate]);
    intros [= <- _]; reflexivity.
Qed.

(** The position that a call hands to the tracker or to the sink. *)
Definition handed (cl : Call) : option Position :=
  match cl with
  | Call_master_Update n p | Call_SavePos n p => Some (mkPosition n p)
  | _ => None
  end.

Lemma save_calls_handed (r : Responses) (p q : Position) (forced : bool)
    (cl : Call) :
  In cl (save_calls r p forced) -> handed cl = Some q -> q = p.
Proof.
  unfold save_calls. intros Hin Hq.
  assert (Hcl : cl = Call_master_Update (Name p) (Pos p) \/
                cl = Call_master_Save forced \/
                cl = Call_SavePos (Name p) (Pos p)).
  { destruct (on_master_Save r) as [[|] [?|]];
      destruct (on_getMasterInfoHandler r) as [[?|]|];
      cbn in Hin; intuition auto. }
  destruct Hcl as [->|[->| ->]]; cbn in Hq; try discriminate;
    injection Hq as <-; apply pos_eta.
Qed.

Lemma handed_tracker (cl : Call) (q : Position) :
  handed cl = Some q -> is_tracker_or_sink cl = true.
Proof. destruct cl; cbn; intros H; try discriminate; reflexivity. Qed.

(** A position handed over during one iteration is the position after
    the event of that iteration. *)
Lemma iteration_handed (c : Canal) (g : BinlogEvent + error) (r : Responses)
    (l : Locals) (s : list string) (cl : Call) (q : Position) :
  In cl (calls (iteration c g r l s)) -> handed cl = Some q ->
  exists ev forced,
    g = inl ev /\ save_point l ev = Some (q, forced) /\
    q = next_pos g (pos l).
Proof.
  intros Hin Hq.
  assert (Hf : In cl (tracker_calls (calls (iteration c g r l s))))
    by (apply filter_In; split; [exact Hin | exact (handed_tracker _ _ Hq)]).
  destruct g as [ev|err].
  - pose proof (iteration_tracker_calls c ev r l s) as Hi. cbv zeta in Hi.
    destruct (save_point l ev) as [[p forced]|] eqn:Hp.
    + rewrite Hi in Hf. pose proof (save_calls_handed _ _ _ _ _ Hf Hq) as ->.
      exists ev, forced. split; [reflexivity|].
      split; [exact Hp | exact (save_point_pos _ _ _ _ Hp)].
    + destruct Hi as [Hi _]. rewrite Hi in Hf. destruct Hf.
  - rewrite iteration_error_eq in Hf. destruct Hf.
Qed.

(** X5: while the loop goes on, its position is a function of the answers
    of the syncer alone - the file of the last Rotate event, the offset of the
    last event - whatever the other collaborators do and whether rows events
    are skipped; and each position handed to the tracker or to the sink is the
    position after the event that is being handled, which is a Rotate event,
    an XID event or a Query event that the pattern finds. *)
Theorem tracker_gets_stream_position (c : Canal)
    (answers : list ((BinlogEvent + error) * Responses)) :
  forall (l : Locals) (s : list string),
    (forall l', value (run c answers l s) = Continue l' ->
                pos l' = pos_after (map fst answers) (pos l)) /\
    (forall cl q,
       In cl (calls (run c answers l s)) -> handed cl = Some q ->
       exists before ev r after,
         answers = before ++ (inl ev, r) :: after /\
         q = pos_after (map fst before ++ [inl ev]) (pos l) /\
         (exists l0 forced, save_point l0 ev = Some (q, forced))).
Proof.
  induction answers as [|[g r] rest IH]; intros l s.
  - split.
    + intros l' [= <-]. reflexivity.
    + intros cl q [].
  - split.
    + intros l' H. rewrite run_cons in H.
      destruct (value (iteration c g r l s)) as [l1|e] eqn:Hv; [|discriminate].
      cbn [map fst pos_after]. rewrite <- (iteration_pos _ _ _ _ _ _ Hv).
      apply (proj1 (IH l1 (skiped (iteration c g r l s)))). exact H.
    + intros cl q Hin Hq. rewrite run_cons in Hin.
      assert (Hhere : In cl (calls (iteration c g r l s)) ->
                      exists before ev r0 after,
                        (g, r) :: rest = before ++ (inl ev, r0) :: after /\
                        q = pos_after (map fst before ++ [inl ev]) (pos l) /\
                        (exists l0 forced, save_point l0 ev = Some (q, forced))).
      { intros Hi. destruct (iteration_handed _ _ _ _ _ _ _ Hi Hq)
          as (ev & forced & -> & Hp & Hn).
        exists [], ev, r, rest. repeat split; eauto. }
      destruct (value (iteration c g r l s)) as [l1|e] eqn:Hv; [|auto].
      cbv zeta in Hin. unfold calls at 1 in Hin. simpl snd in Hin.
      rewrite in_app_iff in Hin. destruct Hin as [Hin|Hin]; [auto|].
      destruct (proj2 (IH l1 (skiped (iteration c g r l s))) cl q Hin Hq)
        as (before & ev & r0 & after & -> & Hpos & Hsp).
      exists ((g, r) :: before), ev, r0, after.
      split; [reflexivity|]. split; [|exact Hsp].
      cbn [map fst app pos_after].
      rewrite <- (iteration_pos _ _ _ _ _ _ Hv). exact Hpos.
Qed.

Definition rotate_to (name : string) (position : Z) : BinlogEvent :=
  mkEvent (mkHeader 4 0) (ERotate (mkRotate position name)).

Lemma tracker_gets_stream_position_witness :
  exists l',
    value (run app_canal
             [(inl (rotate_to "mysql-bin.000002" 4), quiet);
              (inl other_rows, quiet); (inr DeadlineExceeded, quiet)]
             at_start []) = Continue l' /\
    pos l' = mkPosition "mysql-bin.000002" 1200.
Proof.
  eexists. split; [reflexivity|].
  apply (proj1 (tracker_gets_stream_position app_canal
                  [(inl (rotate_to "mysql-bin.000002" 4), quiet);
                   (inl other_rows, quiet); (inr DeadlineExceeded, quiet)]
                  at_start [])).
  reflexivity.
Defined.

(** X6: the offsets handed to the tracker and to the sink are 32-bit
    numbers whenever the offsets of the event headers are: the 64-bit position
    of a Rotate event is cut down to its low 32 bits. *)
Theorem handed_offsets_are_uint32 (c : Canal)
    (answers : list ((BinlogEvent + error) * Responses))
    (l : Locals) (s : list string)
    (Hheaders : forall ev r, In (inl ev, r) answers ->
                             0 <= LogPos (Header ev) < 2 ^ 32) :
  (forall cl q,
     In cl (calls (run c answers l s)) -> handed cl = Some q ->
     0 <= Pos q < 2 ^ 32) /\
  (forall e r h rest l0 s0,
     tracker_calls
       (calls (run c ((inl (mkEvent h (ERotate e)), r) :: rest) l0 s0)) <> [] /\
     hd_error
       (tracker_calls
          (calls (run c ((inl (mkEvent h (ERotate e)), r) :: rest) l0 s0)))
     = Some (Call_master_Update (NextLogName e) (Position_ e mod 2 ^ 32))).
Proof.
  split.
  - intros cl q Hin Hq.
    assert (Hf : In cl (tracker_calls (calls (run c answers l s))))
      by (apply filter_In; split; [exact Hin | exact (handed_tracker _ _ Hq)]).
    destruct (run_tracker_calls c answers l s cl Hf)
      as (ev & r & l' & p & forced & Ha & Hp & Hc).
    pose proof (save_calls_handed _ _ _ _ _ Hc Hq) as ->.
    apply save_point_pos in Hp. subst p. unfold next_pos.
    destruct (Event_ ev) as [e|e| |e|k]; cbn [Pos];
      try exact (Hheaders ev r Ha).
    unfold uint32. apply Z.mod_pos_bound. reflexivity.
  - intros e r h rest l0 s0.
    assert (Hhd : hd_error
              (tracker_calls
                 (calls (run c ((inl (mkEvent h (ERotate e)), r) :: rest) l0 s0)))
            = Some (Call_master_Update (NextLogName e) (Position_ e mod 2 ^ 32))).
    { rewrite run_cons.
      pose proof (iteration_tracker_calls c (mkEvent h (ERotate e)) r l0 s0) as Hi.
      cbv beta iota zeta delta [save_point Event_] in Hi.
      destruct (value (iteration c (inl (mkEvent h (ERotate e))) r l0 s0)).
      - cbv zeta. unfold calls at 1. simpl snd.
        unfold tracker_calls in *. rewrite filter_app, Hi. reflexivity.
      - unfold calls at 1. simpl snd. unfold tracker_calls in *.
        rewrite Hi. reflexivity. }
    split; [|exact Hhd].
    intros Hnil. rewrite Hnil in Hhd. discriminate.
Qed.

Lemma handed_offsets_are_uint32_witness :
  hd_error
    (tracker_calls
       (calls (run app_canal
                 [(inl (rotate_to "mysql-bin.000002" (2 ^ 32 + 4)), quiet)]
                 at_start [])))
  = Some (Call_master_Update "mysql-bin.000002" 4).
Proof.
  assert (H : forall (ev : BinlogEvent) (r : Responses),
             In (inl ev : BinlogEvent + error, r) [] ->
             0 <= LogPos (Header ev) < 2 ^ 32) by (intros ev r []).
  exact (proj2 (proj2 (handed_offsets_are_uint32 app_canal [] at_start [] H)
                  (mkRotate (2 ^ 32 + 4) "mysql-bin.000002") quiet
                  (mkHeader 4 0) [] at_start [])).
Defined.

(** ** The order of the calls on the tracker and the sink *)

(** Calls in save steps: Update, then Save, then - or not - SavePos with
    the position of the Update. *)
Inductive save_steps : list Call -> Prop :=
| save_steps_nil : save_steps []
| save_steps_tracker (n : string) (p : Z) (f : bool) (rest : list Call) :
    save_steps rest ->
    save_steps (Call_master_Update n p :: Call_master_Save f :: rest)
| save_steps_sink (n : string) (p : Z) (f : bool) (rest : list Call) :
    save_steps rest ->
    save_steps (Call_master_Update n p :: Call_master_Save f
                  :: Call_SavePos n p :: rest).

Lemma save_steps_app (a b : list Call) :
  save_steps a -> save_steps b -> save_steps (a ++ b).
Proof.
  induction 1; intros Hb; cbn [app];
    [exact Hb | apply save_steps_tracker; auto | apply save_steps_sink; auto].
Qed.

Lemma save_calls_steps (r : Responses) (p : Position) (forced : bool) :
  save_steps (save_calls r p forced).
Proof.
  unfold save_calls.
  destruct (on_master_Save r) as [[|] [?|]];
    destruct (on_getMasterInfoHandler r) as [[?|]|]; cbn;
    first [apply save_steps_sink; apply save_steps_nil
          |apply save_steps_tracker; apply save_steps_nil].
Qed.

Lemma iteration_save_steps (c : Canal) (g : BinlogEvent + error)
    (r : Responses) (l : Locals) (s : list string) :
  save_steps (tracker_calls (calls (iteration c g r l s))).
Proof.
  destruct g as [ev|err].
  - pose proof (iteration_tracker_calls c ev r l s) as Hi. cbv zeta in Hi.
    destruct (save_point l ev) as [[p forced]|].
    + rewrite Hi. apply save_calls_steps.
    + destruct Hi as [-> _]. constructor.
  - rewrite iteration_error_eq. constructor.
Qed.

(** X7: in every run the calls on the tracker and the sink come in save
    steps: the tracker is told the position, then asked to save it, and the
    sink is only ever given the position that the tracker was just told, right
    after that Save. *)
Theorem tracker_and_sink_in_step (c : Canal)
    (answers : list ((BinlogEvent + error) * Responses)) :
  forall (l : Locals) (s : list string),
    save_steps (tracker_calls (calls (run c answers l s))) /\
    (forall before n p after,
       tracker_calls (calls (run c answers l s))
       = before ++ Call_SavePos n p :: after ->
       exists before' f,
         before = before' ++ [Call_master_Update n p; Call_master_Save f]).
Proof.
  assert (Hsteps : forall l s,
            save_steps (tracker_calls (calls (run c answers l s)))).
  { induction answers as [|[g r] rest IH]; intros l s.
    - constructor.
    - rewrite run_cons. pose proof (iteration_save_steps c g r l s) as Hi.
      destruct (value (iteration c g r l s)) as [l'|e]; [|exact Hi].
      cbv zeta. unfold calls at 1. simpl snd.
      unfold tracker_calls in *. rewrite filter_app.
      apply save_steps_app; [exact Hi | apply IH]. }
  intros l s. split; [apply Hsteps|].
  generalize (Hsteps l s). generalize (tracker_calls (calls (run c answers l s))).
  intros t Ht. induction Ht as [|n0 p0 f0 rest Hr IH|n0 p0 f0 rest Hr IH];
    intros before n p after Heq.
  - destruct before; discriminate.
  - destruct before as [|x1 [|x2 before]]; try discriminate.
    injection Heq as <- <- Heq.
    destruct (IH _ _ _ _ Heq) as (b' & f & ->).
    exists (Call_master_Update n0 p0 :: Call_master_Save f0 :: b'), f.
    reflexivity.
  - destruct before as [|x1 [|x2 [|x3 before]]]; try discriminate.
    + injection Heq as <- <- <- <- _. exists [], f0. reflexivity.
    + injection Heq as <- <- <- Heq.
      destruct (IH _ _ _ _ Heq) as (b' & f & ->).
      exists (Call_master_Update n0 p0 :: Call_master_Save f0
                :: Call_SavePos n0 p0 :: b'), f.
      reflexivity.
Qed.

(** ** Table lookup failures *)

(** X8: when the table of a rows event in scope cannot be resolved, the
    loop returns that error, traced by [handleRowsEvent] and by the loop,
    whatever the subtype of the event - also one that is not supported: no row
    handler is called, nothing reaches the tracker or the sink, and the list
    of skipped schemas is as before. *)
Theorem table_lookup_failure_ends_the_loop (c : Canal) (r : Responses)
    (h : EventHeader) (e : RowsEvent) (err : error) (l : Locals)
    (s : list string) (rest : list ((BinlogEvent + error) * Responses))
    (Hscope : value (isSkipedSchema c (Table_Schema e) s) = false)
    (Hfail : on_GetTable r = inr err) :
  handleRowsEvent c r h e s
  = (Some (Trace err), s, [Call_GetTable (Table_Schema e) (Table_Table e)]) /\
  run c ((inl (mkEvent h (ERows e)), r) :: rest) l s
  = (Return (Trace (Trace err)), s,
     [Call_GetEvent (getEvent_wait l);
      Call_GetTable (Table_Schema e) (Table_Table e);
      Call_log (Error_handle_rows (Trace err))]).
Proof.
  assert (Hr : restricted c (Table_Schema e) = false).
  { rewrite isSkipedSchema_eq in Hscope.
    destruct (restricted c (Table_Schema e)); [|reflexivity].
    destruct (range_found (Table_Schema e) s); discriminate. }
  assert (Hh : handleRowsEvent c r h e s
               = (Some (Trace err), s,
                  [Call_GetTable (Table_Schema e) (Table_Table e)]))
    by (rewrite handleRowsEvent_eq, Hr, Hfail; reflexivity).
  split; [exact Hh|].
  rewrite run_cons, iteration_event_eq.
  cbv beta iota zeta delta [Event_ Header]. rewrite Hh. reflexivity.
Qed.

Definition no_table : Responses :=
  mkResponses (inr (External "no such table")) None (true, None) None.

Lemma table_lookup_failure_ends_the_loop_witness :
  run app_canal [(inl (app_rows 20), no_table); (inl xid, quiet)] at_start []
  = (Return (Trace (Trace (External "no such table"))), [],
     [Call_GetEvent (getEvent_wait at_start);
      Call_GetTable "app" "t";
      Call_log (Error_handle_rows (Trace (External "no such table")))]).
Proof.
  apply (table_lookup_failure_ends_the_loop app_canal no_table
           (mkHeader 20 1200) (mkRows "app" "t" [["1"; "a"]])
           (External "no such table") at_start [] [(inl xid, quiet)]);
    reflexivity.
Defined.

(** ** The start of the session *)

Definition is_StartSync (cl : Call) : bool :=
  match cl with Call_StartSync _ => true | _ => false end.

Definition is_GetEvent (cl : Call) : bool :=
  match cl with Call_GetEvent _ => true | _ => false end.

Lemma iteration_no_StartSync (c : Canal) (g : BinlogEvent + error)
    (r : Responses) (l : Locals) (s : list string) :
  filter is_StartSync (calls (iteration c g r l s)) = [] /\
  filter is_GetEvent (calls (iteration c g r l s))
  = [Call_GetEvent (getEvent_wait l)].
Proof.
  destruct g as [ev|err].
  - rewrite iteration_event_eq.
    destruct (Event_ ev) as [e|e| |e|k]; cbv zeta;
      try (destruct (expAlterTable_FindSubmatch (Query e)));
      try rewrite save_step_eq;
      try (rewrite handleRowsEvent_eq, isSkipedSchema_eq;
           destruct (restricted c (Table_Schema e));
           [destruct (range_found (Table_Schema e) s)
           |destruct (on_GetTable r);
            [destruct (action_of _);
             [destruct (on_travelRowsEventHandler r)|]|]]);
      try (destruct (on_master_Save r) as [[|] [?|]];
           destruct (on_getMasterInfoHandler r) as [[?|]|]);
      split; reflexivity.
  - rewrite iteration_error_eq. split; reflexivity.
Qed.

Lemma run_cons_calls (c : Canal) (g : BinlogEvent + error) (r : Responses)
    (rest : list ((BinlogEvent + error) * Responses)) (l : Locals)
    (s : list string) :
  calls (run c ((g, r) :: rest) l s) =
  calls (iteration c g r l s) ++
  match value (iteration c g r l s) with
  | Continue l' => calls (run c rest l' (skiped (iteration c g r l s)))
  | Return _ => []
  end.
Proof.
  rewrite run_cons. destruct (value (iteration c g r l s)).
  - reflexivity.
  - cbn [calls snd]. rewrite app_nil_r. reflexivity.
Qed.

Lemma run_cons_value (c : Canal) (g : BinlogEvent + error) (r : Responses)
    (rest : list ((BinlogEvent + error) * Responses)) (l : Locals)
    (s : list string) :
  value (run c ((g, r) :: rest) l s) =
  match value (iteration c g r l s) with
  | Continue l' => value (run c rest l' (skiped (iteration c g r l s)))
  | Return e => Return e
  end.
Proof.
  rewrite run_cons. destruct (value (iteration c g r l s)); reflexivity.
Qed.

Lemma run_no_StartSync (c : Canal)
    (answers : list ((BinlogEvent + error) * Responses)) :
  forall (l : Locals) (s : list string),
    filter is_StartSync (calls (run c answers l s)) = [] /\
    (List.length (filter is_GetEvent (calls (run c answers l s)))
     <= List.length answers)%nat /\
    (forall l', value (run c answers l s) = Continue l' ->
                List.length (filter is_GetEvent (calls (run c answers l s)))
                = List.length answers).
Proof.
  induction answers as [|[g r] rest IH]; intros l s.
  - repeat split. cbn. lia.
  - rewrite run_cons_calls, run_cons_value, !filter_app.
    destruct (iteration_no_StartSync c g r l s) as [Hs Hg]. rewrite Hs, Hg.
    destruct (value (iteration c g r l s)) as [l1|e].
    + destruct (IH l1 (skiped (iteration c g r l s))) as (Hs' & Hle & Heq).
      rewrite Hs'. cbn [app List.length].
      repeat split; [lia|]. intros l' H. rewrite (Heq l' H). reflexivity.
    + cbn. repeat split; [lia | discriminate].
Qed.

(** X9: a session asks the syncer to start exactly once, at the position
    of the master, before any event is pulled - the loop never starts the
    stream again, whatever errors follow; when that start fails the session
    returns the error without pulling, and otherwise it pulls once per answer
    that the loop gets to. *)
Theorem session_starts_once (c : Canal) (startSync : option error)
    (answers : list ((BinlogEvent + error) * Responses)) (s : list string) :
  let x := startSyncBinlog c startSync answers s in
  let p := mkPosition (master_Name c) (master_Position c) in
  filter is_StartSync (calls x) = [Call_StartSync p] /\
  firstn 2 (calls x) = [Call_log (Info_start_sync p); Call_StartSync p] /\
  (forall err, startSync = Some err ->
     x = (Return (StartSyncError p err), s,
          [Call_log (Info_start_sync p); Call_StartSync p])) /\
  (startSync = None ->
   (List.length (filter is_GetEvent (calls x)) <= List.length answers)%nat /\
   forall l', value x = Continue l' ->
              List.length (filter is_GetEvent (calls x)) = List.length answers).
Proof.
  cbv zeta. unfold startSyncBinlog, bind, call, ret.
  destruct startSync as [err|].
  - cbn. repeat split; try reflexivity; try discriminate.
    intros e [= <-]. reflexivity.
  - set (l0 := mkLocals _ _ _ _).
    destruct (run_no_StartSync c answers l0 s) as (Hs & Hle & Heq).
    destruct (run c answers l0 s) as [[o s1] t1] eqn:Hrun.
    unfold calls, value in *. cbn [fst snd app filter is_StartSync is_GetEvent firstn] in *.
    rewrite Hs. repeat split; try assumption; discriminate.
Qed.

(** ** The shared list and the loop *)

Definition is_skip_note (cl : Call) : bool :=
  match cl with Call_log (Info_skiped _ _) => true | _ => false end.

(** The calls but the notes of the schema filter. *)
Definition without_notes (t : list Call) : list Call :=
  filter (fun cl => negb (is_skip_note cl)) t.

Lemma iteration_whatever_list (c : Canal) (g : BinlogEvent + error)
    (r : Responses) (l : Locals) (s1 s2 : list string) :
  value (iteration c g r l s1) = value (iteration c g r l s2) /\
  without_notes (calls (iteration c g r l s1))
  = without_notes (calls (iteration c g r l s2)).
Proof.
  destruct g as [ev|err].
  - rewrite !iteration_event_eq.
    destruct (Event_ ev) as [e|e| |e|k]; cbv zeta;
      try (destruct (expAlterTable_FindSubmatch (Query e)));
      try rewrite !save_step_eq;
      try (rewrite !handleRowsEvent_eq, !isSkipedSchema_eq;
           destruct (restricted c (Table_Schema e));
           [destruct (range_found (Table_Schema e) s1);
            destruct (range_found (Table_Schema e) s2)
           |destruct (on_GetTable r);
            [destruct (action_of _);
             [destruct (on_travelRowsEventHandler r)|]|]]);
      try (destruct (on_master_Save r) as [[|] [?|]];
           destruct (on_getMasterInfoHandler r) as [[?|]|]);
      split; reflexivity.
  - rewrite !iteration_error_eq. split; reflexivity.
Qed.

(** X10: what is in the shared list of skipped schemas - whatever this or
    another [Canal] of the process has put there - changes nothing of a run
    but the notes that the filter logs: the run ends the same way, with the
    same loop variables, and makes the same calls in the same order. *)
Theorem shared_list_only_gates_the_note (c : Canal)
    (answers : list ((BinlogEvent + error) * Responses)) :
  forall (l : Locals) (s1 s2 : list string),
    value (run c answers l s1) = value (run c answers l s2) /\
    without_notes (calls (run c answers l s1))
    = without_notes (calls (run c answers l s2)) /\
    (forall schema,
       value (isSkipedSchema c schema s1) = value (isSkipedSchema c schema s2)).
Proof.
  induction answers as [|[g r] rest IH]; intros l s1 s2.
  - repeat split. intros schema. rewrite !isSkipedSchema_eq.
    destruct (restricted c schema); [|reflexivity].
    destruct (range_found schema s1), (range_found schema s2); reflexivity.
  - destruct (iteration_whatever_list c g r l s1 s2) as [Hv Hc].
    rewrite !run_cons_value, !run_cons_calls. unfold without_notes in *.
    rewrite !filter_app, Hc, Hv.
    destruct (value (iteration c g r l s2)) as [l'|e].
    + destruct (IH l' (skiped (iteration c g r l s1))
                  (skiped (iteration c g r l s2))) as (Hv' & Hc' & _).
      rewrite Hv', Hc'. repeat split. apply (IH l s1 s2).
    + repeat split. apply (IH l s1 s2).
Qed.

Lemma run_cons_skiped (c : Canal) (g : BinlogEvent + error) (r : Responses)
    (rest : list ((BinlogEvent + error) * Responses)) (l : Locals)
    (s : list string) :
  skiped (run c ((g, r) :: rest) l s) =
  match value (iteration c g r l s) with
  | Continue l' => skiped (run c rest l' (skiped (iteration c g r l s)))
  | Return _ => skiped (iteration c g r l s)
  end.
Proof.
  rewrite run_cons. destruct (value (iteration c g r l s)); reflexivity.
Qed.

Lemma isSkipedSchema_entry (c : Canal) (schema : string) (s : list string)
    (x : string) :
  In x (skiped (isSkipedSchema c schema s)) ->
  In x s \/ (x = schema /\ restricted c schema = true).
Proof.
  rewrite isSkipedSchema_eq.
  destruct (restricted c schema); [|auto].
  destruct (range_found schema s); [auto|].
  unfold skiped. cbn [fst snd]. rewrite in_app_iff.
  intros [H|[<-|[]]]; auto.
Qed.

(** X11: a run adds to the list of skipped schemas nothing but schemas of
    rows events that it received and that are outside the configured scope:
    with no scope configured it adds nothing, and the configured schema itself
    is never added. *)
Theorem skipped_schemas_come_from_rows_events (c : Canal)
    (answers : list ((BinlogEvent + error) * Responses)) :
  forall (l : Locals) (s : list string),
    (forall x,
       In x (skiped (run c answers l s)) ->
       In x s \/
       (cfg_Dump_TableDB c <> "" /\ cfg_Dump_TableDB c <> x /\
        exists ev r e,
          In (inl ev, r) answers /\ Event_ ev = ERows e /\ Table_Schema e = x)) /\
    (cfg_Dump_TableDB c = "" -> skiped (run c answers l s) = s) /\
    (~ In (cfg_Dump_TableDB c) s ->
     ~ In (cfg_Dump_TableDB c) (skiped (run c answers l s))).
Proof.
  assert (Hentry : forall l s x,
    In x (skiped (run c answers l s)) ->
    In x s \/
    (cfg_Dump_TableDB c <> "" /\ cfg_Dump_TableDB c <> x /\
     exists ev r e,
       In (inl ev, r) answers /\ Event_ ev = ERows e /\ Table_Schema e = x)).
  { induction answers as [|[g r] rest IH]; intros l s x Hin.
    - left. exact Hin.
    - rewrite run_cons_skiped in Hin.
      assert (Hit : In x (skiped (iteration c g r l s)) ->
                    In x s \/
                    (cfg_Dump_TableDB c <> "" /\ cfg_Dump_TableDB c <> x /\
                     exists ev r0 e,
                       In (inl ev, r0) ((g, r) :: rest) /\
                       Event_ ev = ERows e /\ Table_Schema e = x)).
      { rewrite iteration_skiped.
        destruct g as [[h [e|e| |e|k]]|err]; auto.
        intros H. apply isSkipedSchema_entry in H.
        destruct H as [H|[-> Hr]]; [auto|].
        apply restricted_true in Hr. destruct Hr as [H1 H2].
        right. repeat split; try assumption.
        exists (mkEvent h (ERows e)), r, e.
        split; [left; reflexivity | split; reflexivity]. }
      destruct (value (iteration c g r l s)) as [l'|e]; [|auto].
      apply IH in Hin. destruct Hin as [Hin|(H1 & H2 & ev & r0 & e & Ha & Hrest)].
      + auto.
      + right. repeat split; try assumption.
        exists ev, r0, e. split; [right; exact Ha | exact Hrest]. }
  assert (Hsame : cfg_Dump_TableDB c = "" ->
                  forall rest l s, skiped (run c rest l s) = s).
  { intros Hnone rest.
    induction rest as [|[g r] rest IH]; intros l s; [reflexivity|].
    assert (Hit : skiped (iteration c g r l s) = s).
    { rewrite iteration_skiped.
      destruct g as [[h [e|e| |e|k]]|err]; try reflexivity.
      rewrite isSkipedSchema_eq. unfold restricted. rewrite Hnone. reflexivity. }
    rewrite run_cons_skiped, Hit.
    destruct (value (iteration c g r l s)); [apply IH | reflexivity]. }
  intros l s. split; [apply Hentry|]. split.
  - intros Hnone. apply Hsame. exact Hnone.
  - intros Hnot Hin. apply Hentry in Hin.
    destruct Hin as [Hin|(_ & Hne & _)]; [auto | congruence].
Qed.

(** ** What WaitUntilPos stands for *)

(** The result of the polling loop, read backwards: the wait ended at a
    tick, every earlier look found the tracker below the target with the timer
    still running, and the wait ended with nil on a look that found the target
    reached before the timer fired, or with the error once it had fired. *)
Lemma poll_sound (curpos : nat -> Position) (target : Position)
    (deadline : Duration.t) (fuel : nat) :
  forall (now : Duration.t) (k : nat) (res : option error) (t : Duration.t),
    poll fuel curpos target deadline now k = Some (res, t) ->
    exists j : nat,
      t = now + Z.of_nat j * tick /\
      (forall i, (i < j)%nat ->
                 Compare (curpos (k + i)%nat) target < 0 /\
                 now + Z.of_nat i * tick < deadline) /\
      ((res = None /\ 0 <= Compare (curpos (k + j)%nat) target /\ t < deadline) \/
       (res = Some (WaitPosition target) /\ deadline <= t)).
Proof.
  induction fuel as [|fuel IH]; intros now k res t H; [discriminate|].
  cbn [poll] in H.
  destruct (Z.leb_spec deadline now) as [Hd|Hd].
  - injection H as <- <-. exists 0%nat.
    split; [cbn; lia|]. split; [intros i Hi; lia|]. right. split; [reflexivity|].
    cbn. lia.
  - destruct (Z.leb_spec 0 (Compare (curpos k) target)) as [Hc|Hc].
    + injection H as <- <-. exists 0%nat.
      split; [cbn; lia|]. split; [intros i Hi; lia|]. left.
      rewrite Nat.add_0_r. repeat split; [exact Hc | cbn; lia].
    + apply IH in H. destruct H as (j & -> & Hbefore & Hend).
      exists (S j). split; [lia|]. split.
      * intros [|i] Hi.
        -- rewrite Nat.add_0_r. cbn. split; [exact Hc | lia].
        -- destruct (Hbefore i ltac:(lia)) as [H1 H2].
           replace (k + S i)%nat with (S k + i)%nat by lia. split; [exact H1 | lia].
      * replace (k + S j)%nat with (S k + j)%nat by lia.
        destruct Hend as [(-> & H1 & H2)|(-> & H1)]; [left | right];
          repeat split; try assumption; lia.
Qed.

(** X12: whatever the timeout, WaitUntilPos returns nil only from a look, at
    a multiple of 100ms after the call and before the timer fired, that found
    the tracked position at or beyond the target, all earlier looks having
    found it below; and it returns the error - always the wait-position error
    for that target - only once the timer has fired. *)
Theorem WaitUntilPos_returns_for_a_reason (curpos : nat -> Position)
    (target : Position) (timeout : Z) (res : option error) (t : Duration.t)
    (Hres : WaitUntilPos curpos target timeout = Some (res, t)) :
  let deadline :=
    Duration.mul (if timeout <=? 0 then 60 else timeout) Duration.Second in
  exists j : nat,
    t = Z.of_nat j * tick /\
    (forall i, (i < j)%nat -> Compare (curpos i) target < 0) /\
    ((res = None /\ 0 <= Compare (curpos j) target /\ t < deadline) \/
     (res = Some (WaitPosition target) /\ deadline <= t)).
Proof.
  cbv zeta. unfold WaitUntilPos, WaitUntilPos_fuel in Hres.
  apply poll_sound in Hres. destruct Hres as (j & -> & Hbefore & Hend).
  exists j. split; [lia|]. split.
  - intros i Hi. apply (Hbefore i Hi).
  - exact Hend.
Qed.

Lemma WaitUntilPos_returns_for_a_reason_witness :
  exists j : nat, 300000000 = Z.of_nat j * tick /\
                  0 <= Compare (mkPosition "fileB" 500) (mkPosition "fileB" 500).
Proof.
  assert (H : WaitUntilPos
                (fun k => if (k <? 3)%nat then mkPosition "fileA" 100
                          else mkPosition "fileB" 500)
                (mkPosition "fileB" 500) 1
              = Some (None, 300000000)) by (vm_compute; reflexivity).
  destruct (WaitUntilPos_returns_for_a_reason _ _ _ _ _ H)
    as (j & Hj & _ & [(_ & Hc & _)|(Hn & _)]); [|discriminate].
  exists j. split; [exact Hj|]. vm_compute. discriminate.
Defined.

(** ** CatchMasterPos *)

(** What the result of SHOW MASTER STATUS gives for its first row: the
    string of column 0 and the integer of column 1, each with the error of the
    getter. *)
Record Result : Type := mkResult {
  GetString_0_0 : string * option error;
  GetInt_0_1 : Z * option error
}.

(** [execute] is what [c.Execute] returns.  The errors of the two getters
    are dropped, as in the source; the integer is an [int64]. *)
Definition CatchMasterPos (execute : Result + error)
    (curpos : nat -> Position) (timeout : Z)
    : option (option error * Duration.t) :=
  match execute with
  | inr err => Some (Some (Trace err), 0)
  | inl rr =>
      let name := fst (GetString_0_0 rr) in
      let pos := fst (GetInt_0_1 rr) in
      WaitUntilPos curpos (mkPosition name (uint32 pos)) timeout
  end.

Lemma WaitUntilPos_nonpositive (curpos : nat -> Position) (target : Position)
    (timeout : Z) :
  timeout <= 0 ->
  WaitUntilPos curpos target timeout = WaitUntilPos curpos target 60.
Proof.
  intros H. unfold WaitUntilPos, WaitUntilPos_fuel, enough.
  destruct (Z.leb_spec timeout 0); [reflexivity | lia].
Qed.

Lemma WaitUntilPos_already_there (curpos : nat -> Position) (target : Position)
    (timeout : Z) :
  timeout <= 9223372036 ->
  0 <= Compare (curpos 0%nat) target ->
  WaitUntilPos curpos target timeout = Some (None, 0).
Proof.
  intros Hmax Hreach.
  assert (H60 : 0 < 60 <= 9223372036) by lia.
  destruct (Z.le_gt_cases timeout 0) as [Hle|Hgt].
  - rewrite (WaitUntilPos_nonpositive _ _ _ Hle).
    apply (WaitUntilPos_reached curpos target 60 H60 0%nat);
      [lia | intros j Hj; lia | exact Hreach].
  - apply (WaitUntilPos_reached curpos target timeout (conj Hgt Hmax) 0%nat);
      [lia | intros j Hj; lia | exact Hreach].
Qed.

(** X13: CatchMasterPos waits for the position that the master reports, the
    offset cut to 32 bits.  When the query fails it returns that error, traced,
    without looking at the tracker.  The errors of the getters are dropped:
    when they leave an empty file name and a zero offset, the wait is for a
    position that every tracked position has reached, and the call returns nil
    at once, as it does whenever the tracker is already at the position
    reported. *)
Theorem CatchMasterPos_waits_for_the_reported_position
    (curpos : nat -> Position) (timeout : Z) (Hmax : timeout <= 9223372036) :
  (forall err, CatchMasterPos (inr err) curpos timeout = Some (Some (Trace err), 0)) /\
  (forall name pos e1 e2,
     CatchMasterPos (inl (mkResult (name, e1) (pos, e2))) curpos timeout
     = WaitUntilPos curpos (mkPosition name (pos mod 2 ^ 32)) timeout) /\
  (forall name pos e1 e2,
     0 <= Compare (curpos 0%nat) (mkPosition name (pos mod 2 ^ 32)) ->
     CatchMasterPos (inl (mkResult (name, e1) (pos, e2))) curpos timeout
     = Some (None, 0)) /\
  (forall e1 e2,
     0 <= Pos (curpos 0%nat) ->
     CatchMasterPos (inl (mkResult ("", e1) (0, e2))) curpos timeout
     = Some (None, 0)).
Proof.
  split; [reflexivity|]. split; [reflexivity|]. split.
  - intros name pos e1 e2 H. apply WaitUntilPos_already_there; assumption.
  - intros e1 e2 H. apply WaitUntilPos_already_there; [exact Hmax|].
    apply Compare_reached. cbn [Name Pos uint32].
    destruct (Name (curpos 0%nat)) as [|a n] eqn:Hn.
    + right. split; [reflexivity | exact H].
    + left. reflexivity.
Qed.

Lemma CatchMasterPos_waits_for_the_reported_position_witness :
  CatchMasterPos
    (inl (mkResult ("", Some (External "no rows")) (0, Some (External "no rows"))))
    (fun _ => mkPosition "mysql-bin.000001" 4) 10
  = Some (None, 0).
Proof.
  assert (H : 10 <= 9223372036) by lia.
  apply (proj2 (proj2 (proj2 (CatchMasterPos_waits_for_the_reported_position
                                (fun _ => mkPosition "mysql-bin.000001" 4) 10 H)))).
  cbn. lia.
Defined.

(** ** The variable timeout on a quiet stream *)

Lemma wrap_mul_wrap (m z : Z) :
  Duration.wrap (m * Duration.wrap z) = Duration.wrap (m * z).
Proof.
  unfold Duration.wrap.
  replace (m * ((z + 2 ^ 63) mod 2 ^ 64 - 2 ^ 63) + 2 ^ 63)
    with (m * z + 2 ^ 63 + (- m * ((z + 2 ^ 63) / 2 ^ 64)) * 2 ^ 64).
  - rewrite Z.mod_add by discriminate. reflexivity.
  - pose proof (Z.div_mod (z + 2 ^ 63) (2 ^ 64) ltac:(discriminate)) as H.
    set (q := (z + 2 ^ 63) / 2 ^ 64) in *.
    set (w := (z + 2 ^ 63) mod 2 ^ 64) in *. nia.
Qed.

Lemma doubled_wrap (n : nat) :
  forall d : Duration.t,
    doubled (S n) d = Duration.wrap (2 ^ Z.of_nat (S n) * d).
Proof.
  induction n as [|n IH]; intros d.
  - reflexivity.
  - change (doubled (S (S n)) d) with (doubled (S n) (Duration.mul 2 d)).
    rewrite IH. unfold Duration.mul. rewrite wrap_mul_wrap.
    f_equal. rewrite (Nat2Z.inj_succ (S n)), Z.pow_succ_r by lia. lia.
Qed.

(** X14: the variable [timeout] does not grow without bound on a quiet
    stream: it is an int64 of nanoseconds that every deadline doubles, so from
    one second it is negative after 34 deadlines in a row and zero after 55 or
    more, and it stays zero until an event is received. *)
Theorem timeout_variable_wraps_to_zero (c : Canal) (r : Responses) (n : nat)
    (l : Locals) (s : list string)
    (Hstart : timeout l = Duration.Second) (Hn : (55 <= n)%nat) :
  run c (repeat (inr DeadlineExceeded, r) n) l s
  = (Continue (set_timeout 0 l), s,
     repeat (Call_GetEvent (2 * Duration.Second)) n) /\
  doubled 33 Duration.Second = 2 ^ 33 * Duration.Second /\
  doubled 34 Duration.Second < 0.
Proof.
  split; [|split; [reflexivity | reflexivity]].
  rewrite run_deadlines, Hstart. do 3 f_equal.
  destruct n as [|n]; [lia|]. rewrite doubled_wrap.
  replace (2 ^ Z.of_nat (S n) * Duration.Second)
    with ((2 ^ (Z.of_nat (S n) - 55) * 1953125) * 2 ^ 64).
  - unfold Duration.wrap. rewrite Z.add_comm, Z.mod_add by discriminate.
    reflexivity.
  - replace (Z.of_nat (S n)) with ((Z.of_nat (S n) - 55) + 55) at 2 by lia.
    rewrite Z.pow_add_r by lia. unfold Duration.Second.
    change (2 ^ 55) with 36028797018963968.
    change (2 ^ 64) with 18446744073709551616. lia.
Qed.

Lemma timeout_variable_wraps_to_zero_witness :
  run app_canal (repeat (inr DeadlineExceeded, quiet) 60) at_start []
  = (Continue (set_timeout 0 at_start), [],
     repeat (Call_GetEvent (2 * Duration.Second)) 60).
Proof.
  apply (timeout_variable_wraps_to_zero app_canal quiet 60 at_start []).
  - reflexivity.
  - lia.
Defined.

(** ** The dispatch of rows events *)

Definition is_dispatch (cl : Call) : bool :=
  match cl with Call_travelRowsEventHandler _ => true | _ => false end.

(** What one answer of the syncer gives the row handlers: the record of a
    rows event in scope, whose table is resolved and whose subtype is one of
    the six. *)
Definition dispatch_of (c : Canal) (a : (BinlogEvent + error) * Responses)
    : list Call :=
  match a with
  | (inl (mkEvent h (ERows e)), r) =>
      if restricted c (Table_Schema e) then []
      else
        match on_GetTable r, action_of (EventType_ h) with
        | inl t, Some action =>
            [Call_travelRowsEventHandler (newRowsEvent t action (Rows e))]
        | _, _ => []
        end
  | _ => []
  end.

Lemma iteration_dispatch (c : Canal) (g : BinlogEvent + error) (r : Responses)
    (l : Locals) (s : list string) :
  filter is_dispatch (calls (iteration c g r l s)) = dispatch_of c (g, r).
Proof.
  destruct g as [[h ev]|err].
  - rewrite iteration_event_eq. cbv beta iota zeta delta [Event_ Header dispatch_of].
    destruct ev as [e|e| |e|k];
      try (destruct (expAlterTable_FindSubmatch (Query e)));
      try rewrite save_step_eq;
      try (rewrite handleRowsEvent_eq, isSkipedSchema_eq;
           destruct (restricted c (Table_Schema e));
           [destruct (range_found (Table_Schema e) s)
           |destruct (on_GetTable r);
            [destruct (action_of _);
             [destruct (on_travelRowsEventHandler r)|]|]]);
      try (destruct (on_master_Save r) as [[|] [?|]];
           destruct (on_getMasterInfoHandler r) as [[?|]|]);
      reflexivity.
  - rewrite iteration_error_eq. reflexivity.
Qed.

(** X15: the row handlers get the rows events in the order of their
    arrival, each at most once: the records dispatched in a run are those of
    the rows events received - in scope, with a resolved table and a supported
    subtype, built from the table returned, the action of the subtype and the
    rows of the event - up to the point where the loop returned, and all of
    them while it goes on. *)
Theorem rows_dispatched_in_order (c : Canal)
    (answers : list ((BinlogEvent + error) * Responses)) :
  forall (l : Locals) (s : list string),
    (exists later,
       flat_map (dispatch_of c) answers
       = filter is_dispatch (calls (run c answers l s)) ++ later) /\
    (forall l', value (run c answers l s) = Continue l' ->
                filter is_dispatch (calls (run c answers l s))
                = flat_map (dispatch_of c) answers).
Proof.
  induction answers as [|[g r] rest IH]; intros l s.
  - split; [exists []; reflexivity | reflexivity].
  - rewrite run_cons_calls, run_cons_value, filter_app, iteration_dispatch.
    cbn [flat_map].
    destruct (value (iteration c g r l s)) as [l1|e].
    + destruct (IH l1 (skiped (iteration c g r l s))) as [[later Hl] Heq].
      split.
      * exists later. rewrite Hl, app_assoc. reflexivity.
      * intros l' H. rewrite (Heq l' H). reflexivity.
    + split; [|discriminate].
      exists (flat_map (dispatch_of c) rest). cbn [filter].
      rewrite app_nil_r. reflexivity.
Qed.
